(** * TurboParser: parameter storage, weight cache and dictionaries

    A shallow embedding of
      - [src/classifier/Parameters.h]  (FeatureLabelCache, Parameters),
      - [src/coreference_resolver/CoreferenceDictionary.h]
        (GenderNumberStatistics),
      - [src/dependency_labeler/DependencyLabelerDecoder.h] (declarations),
    together with the properties the specification states about them.

    Conventions.
      - [uint64_t] feature ids are [N]; no arithmetic is ever done on them.
      - [int] labels, iteration numbers and phrase words are [Z].
      - [double] is an abstract carrier [W] with the operations the code
        uses and NO algebraic law, so that what is proved generically holds
        for IEEE doubles bit for bit.  Identities that need real arithmetic
        are proved on the instance [Qc] (exact rationals); the instance
        [float] (binary64) runs the code as the machine does.
      - [std::unordered_map] and [std::map] are [gmap]s, [std::vector]s are
        lists indexed with [!!!] and updated with [<[ _ := _ ]>]. *)

From Stdlib Require Import QArith Qcanon.
From Stdlib Require Import Floats.PrimFloat.
From Stdlib Require Numbers.Cyclic.Int63.Uint63.
From stdpp Require Import base numbers list gmap fin_maps.

(** ** Arithmetic of weights *)

Class DoubleOps (W : Type) := {
  w0 : W;                      (* 0.0 *)
  w1 : W;                      (* 1.0 *)
  wadd : W → W → W;            (* x + y *)
  wmul : W → W → W;            (* x * y *)
  wneg : W → W;                (* -x *)
  wdiv : W → W → W;            (* x / y *)
  wof_int : Z → W              (* static_cast<double>(i) *)
}.

Global Instance DoubleOps_inhabited `{DoubleOps W} : Inhabited W := populate w0.

(** Exact rational arithmetic, the idealisation of [double] used for the
    algebraic identities. *)
Global Instance Qc_ops : DoubleOps Qc := {|
  w0 := 0%Qc; w1 := 1%Qc;
  wadd := Qcplus; wmul := Qcmult; wneg := Qcopp; wdiv := Qcdiv;
  wof_int := Qc_of_Z
|}.

(** Plain integers, enough to run the code that only adds and multiplies
    (division is the truncating one and is not used by that code). *)
Global Instance Z_ops : DoubleOps Z := {|
  w0 := 0%Z; w1 := 1%Z;
  wadd := Z.add; wmul := Z.mul; wneg := Z.opp; wdiv := Z.div;
  wof_int := id
|}.

(** IEEE 754 binary64, the [double] of the machine: the kernel's primitive
    floats, whose operations round to nearest, ties to even.
    [static_cast<double>] of an [int] is exact. *)
Definition double_of_int (i : Z) : float :=
  if (i <? 0)%Z then PrimFloat.opp (PrimFloat.of_uint63 (Uint63.of_Z (- i)))
  else PrimFloat.of_uint63 (Uint63.of_Z i).

Global Instance binary64_ops : DoubleOps float := {|
  w0 := 0%float; w1 := 1%float;
  wadd := PrimFloat.add; wmul := PrimFloat.mul; wneg := PrimFloat.opp;
  wdiv := PrimFloat.div;
  wof_int := double_of_int
|}.

(** [v[k] += x] on a [std::vector<double>]; the code only ever does it with
    [k < v.size()], and out of range the model leaves [v] as it is. *)
Definition add_at `{DoubleOps W} (v : list W) (k : nat) (x : W) : list W :=
  <[k := wadd (v !!! k) x]> v.

(** Left-to-right sum starting from [0.0], the order a [for] loop with
    [score += ...] adds in. *)
Definition wsum `{DoubleOps W} (l : list W) : W := foldl wadd w0 l.

(** ** FeatureLabelPair and FeatureLabelCache (Parameters.h, 27-96) *)

Record FeatureLabelPair := { feature : N; label : Z }.

Global Instance FeatureLabelPair_eq_dec : EqDecision FeatureLabelPair.
Proof. solve_decision. Defined.

Global Instance FeatureLabelPair_countable : Countable FeatureLabelPair.
Proof.
  refine (inj_countable' (λ p, (feature p, label p))
                         (λ q, {| feature := q.1; label := q.2 |}) _).
  by intros [].
Defined.

(** [FeatureLabelPairMapper] (Parameters.h, 35-52): the hash and the
    comparison the cache's [std::unordered_map] is instantiated with.
    [size_t] is the 64-bit unsigned type of the targets the code is built
    for: a [Z] in [[0, 2^64)], every sum and shift reduced modulo [2^64]. *)
Module FeatureLabelPairMapper.

Definition size_t_wrap (x : Z) : Z := (x mod 2 ^ 64)%Z.

(** [seed ^= value + 0x9e3779b9 + (seed << 6) + (seed >> 2)] on the
    [size_t] the pointer [seed] points to; the result is its new
    content. *)
Definition HashCombine (value seed : Z) : Z :=
  Z.lxor seed
    (size_t_wrap
       (size_t_wrap (size_t_wrap (value + 0x9e3779b9)
                     + size_t_wrap (Z.shiftl seed 6))
        + Z.shiftr seed 2)).

Section hash.
(** [std::hash<uint64_t>] and [std::hash<int>], which the C++ standard
    leaves to the implementation. *)
Variable hash_uint64 : N → Z.
Variable hash_int : Z → Z.

(** [size_t operator()(const FeatureLabelPair& p) const] *)
Definition hash (p : FeatureLabelPair) : Z :=
  let hash := hash_uint64 (feature p) in
  let hash_2 := hash_int (label p) in
  HashCombine hash_2 hash.

End hash.

(** [bool operator()(const FeatureLabelPair &p, const FeatureLabelPair &q)] *)
Definition equal (p q : FeatureLabelPair) : bool :=
  (feature p =? feature q)%N && (label p =? label q)%Z.

End FeatureLabelPairMapper.

(** [uint64_t] counters wrap around at [2^64]. *)
Definition uint64_wrap (n : N) : N := (n mod 2 ^ 64)%N.

(** The conversion of a [uint64_t] to the 32-bit [int] the accessors
    return: the value itself when an [int] can hold it, and otherwise (as
    the compilers in use do, and C++20 prescribes) the value modulo [2^32]
    read as two's complement. *)
Definition int_of_uint64 (n : N) : Z :=
  let r := (Z.of_N n mod 2 ^ 32)%Z in
  if (r <? 2 ^ 31)%Z then r else (r - 2 ^ 32)%Z.

(** [n] times [counter += 1] on a [uint64_t]. *)
Definition uint64_incr (n : nat) (counter : N) : N :=
  Nat.iter n (λ x, uint64_wrap (x + 1)%N) counter.

Module FeatureLabelCache.
Section cache.
Context {W : Type}.

Record t := {
  cache_ : gmap FeatureLabelPair W;
  hits_ : N;
  misses_ : N
}.

(** The constructor. *)
Definition new : t := {| cache_ := ∅; hits_ := 0; misses_ := 0 |}.

Definition GetSize (c : t) : nat := size (cache_ c).

(** [int hits() const { return hits_; }] *)
Definition hits (c : t) : Z := int_of_uint64 (hits_ c).

(** [int misses() const { return misses_; }] *)
Definition misses (c : t) : Z := int_of_uint64 (misses_ c).

Definition IncrementHits (c : t) : t :=
  {| cache_ := cache_ c; hits_ := uint64_wrap (hits_ c + 1);
     misses_ := misses_ c |}.

Definition IncrementMisses (c : t) : t :=
  {| cache_ := cache_ c; hits_ := hits_ c;
     misses_ := uint64_wrap (misses_ c + 1) |}.

(** [cache_.insert({key, value})]: [std::unordered_map::insert] inserts
    only when no element with an equal key is there. *)
Definition Insert (c : t) (key : FeatureLabelPair) (value : W) : t :=
  match cache_ c !! key with
  | Some _ => c
  | None => {| cache_ := <[key := value]> (cache_ c);
               hits_ := hits_ c; misses_ := misses_ c |}
  end.

(** [bool Find(key, double *value)]: [Some v] is "returns true and stores
    [v] in [*value]", [None] is "returns false, [*value] untouched". *)
Definition Find (c : t) (key : FeatureLabelPair) : option W :=
  cache_ c !! key.

End cache.
Global Arguments t : clear implicits.
End FeatureLabelCache.

(** ** GenderNumberStatistics (CoreferenceDictionary.h, 33-55) *)

Module GenderNumberStatistics.

Record t := { phrase_counts_ : gmap (list Z) (list Z) }.

Definition new : t := {| phrase_counts_ := ∅ |}.

Definition Clear (s : t) : t := {| phrase_counts_ := ∅ |}.

(** Returns the flag and the object after the call. *)
Definition AddPhrase (s : t) (phrase counts : list Z) : bool * t :=
  match phrase_counts_ s !! phrase with
  | None => (true, {| phrase_counts_ := <[phrase := counts]> (phrase_counts_ s) |})
  | Some _ => (false, s)
  end.

(** A run of [AddPhrase] calls, one per entry, as a lexicon loader makes
    them: the flags returned, in call order, and the object at the end. *)
Fixpoint AddPhrases (s : t) (entries : list (list Z * list Z))
  : list bool * t :=
  match entries with
  | [] => ([], s)
  | (phrase, counts) :: rest =>
      let '(added, s1) := AddPhrase s phrase counts in
      let '(flags, s2) := AddPhrases s1 rest in
      (added :: flags, s2)
  end.

End GenderNumberStatistics.

(** ** CoreferenceDictionary: tag sets and pronouns
    (CoreferenceDictionary.h, 185-257)

    [CoreferencePronoun] is declared in a header that is not at hand: its
    type and its five predicates are parameters.  The alphabets and the
    three dictionaries the class points to play no part in the functions
    below and are left out of the record. *)

Class PronounOps (P : Type) := {
  IsGenderMale : P → bool;
  IsGenderFemale : P → bool;
  IsGenderNeutral : P → bool;
  IsNumberSingular : P → bool;
  IsNumberPlural : P → bool
}.

(** A pronoun reduced to the five answers themselves, to run the
    dictionary on. *)
Global Instance answers_PronounOps
  : PronounOps (bool * bool * bool * bool * bool) := {|
  IsGenderMale := λ a, a.1.1.1.1;
  IsGenderFemale := λ a, a.1.1.1.2;
  IsGenderNeutral := λ a, a.1.1.2;
  IsNumberSingular := λ a, a.1.2;
  IsNumberPlural := λ a, a.2
|}.

Module CoreferenceDictionary.
Section dictionary.
Context `{PronounOps P}.

(** [all_pronouns_] maps a word to a [CoreferencePronoun*]: [None] as a
    value is the null pointer. *)
Record t := {
  all_pronouns_ : gmap Z (option P);
  named_entity_tags_ : gset Z;
  person_entity_tags_ : gset Z;
  noun_phrase_tags_ : gset Z;
  proper_noun_tags_ : gset Z;
  pronominal_tags_ : gset Z
}.

Definition IsNamedEntity (d : t) (entity_tag : Z) : bool :=
  bool_decide (entity_tag ∈ named_entity_tags_ d).

Definition IsPersonEntity (d : t) (entity_tag : Z) : bool :=
  bool_decide (entity_tag ∈ person_entity_tags_ d).

Definition IsNounPhrase (d : t) (constituent_tag : Z) : bool :=
  bool_decide (constituent_tag ∈ noun_phrase_tags_ d).

Definition IsProperNoun (d : t) (pos_tag : Z) : bool :=
  bool_decide (pos_tag ∈ proper_noun_tags_ d).

Definition IsPronounTag (d : t) (pos_tag : Z) : bool :=
  bool_decide (pos_tag ∈ pronominal_tags_ d).

Definition IsPronoun (d : t) (form_lower : Z) : bool :=
  match all_pronouns_ d !! form_lower with
  | Some _ => true
  | None => false
  end.

(** The pointer returned, [None] for [NULL]. *)
Definition GetPronoun (d : t) (form_lower : Z) : option P :=
  match all_pronouns_ d !! form_lower with
  | None => None
  | Some pronoun => pronoun
  end.

Definition IsMalePronoun (d : t) (form_lower : Z) : bool :=
  match GetPronoun d form_lower with
  | None => false
  | Some pronoun => IsGenderMale pronoun
  end.

Definition IsFemalePronoun (d : t) (form_lower : Z) : bool :=
  match GetPronoun d form_lower with
  | None => false
  | Some pronoun => IsGenderFemale pronoun
  end.

Definition IsNeutralPronoun (d : t) (form_lower : Z) : bool :=
  match GetPronoun d form_lower with
  | None => false
  | Some pronoun => IsGenderNeutral pronoun
  end.

Definition IsSingularPronoun (d : t) (form_lower : Z) : bool :=
  match GetPronoun d form_lower with
  | None => false
  | Some pronoun => IsNumberSingular pronoun
  end.

Definition IsPluralPronoun (d : t) (form_lower : Z) : bool :=
  match GetPronoun d form_lower with
  | None => false
  | Some pronoun => IsNumberPlural pronoun
  end.

(** Every pronoun is deleted and the table cleared; the heap is not
    modelled, the table is. *)
Definition DeleteAllPronouns (d : t) : t := {|
  all_pronouns_ := ∅;
  named_entity_tags_ := named_entity_tags_ d;
  person_entity_tags_ := person_entity_tags_ d;
  noun_phrase_tags_ := noun_phrase_tags_ d;
  proper_noun_tags_ := proper_noun_tags_ d;
  pronominal_tags_ := pronominal_tags_ d
|}.

End dictionary.
Global Arguments t : clear implicits.
End CoreferenceDictionary.


(** ** SparseParameterVector (the unlabeled weight store)

    [SparseParameterVector.h] is not among the sources at hand; the store is
    written from section 4.1 of the specification. *)

Module SparseParameterVector.
Section store.
Context `{DoubleOps W}.

(** Modelled from the spec: [SparseParameterVectorDouble] is missing from
    the sources.  "WeightStore entry: (feature id → weight). Keys are
    unique", with "a growth lock that freezes the feature set". *)
Record t := {
  values_ : gmap N W;
  growth_stopped_ : bool
}.

(** Modelled from the spec: a freshly allocated store ([Initialize]) is
    empty and may grow. *)
Definition Initialize : t := {| values_ := ∅; growth_stopped_ := false |}.

(** Modelled from the spec: "toggles whether unseen keys may be inserted. Must
    be idempotent." *)
Definition StopGrowth (s : t) : t :=
  {| values_ := values_ s; growth_stopped_ := true |}.

(** Modelled from the spec: see [StopGrowth]. *)
Definition AllowGrowth (s : t) : t :=
  {| values_ := values_ s; growth_stopped_ := false |}.

(** Modelled from the spec: the number of distinct keys. *)
Definition Size (s : t) : nat := size (values_ s).

(** Modelled from the spec: "distinguishes present with weight 0.0 from
    absent". *)
Definition Exists (s : t) (key : N) : bool :=
  bool_decide (is_Some (values_ s !! key)).

(** Modelled from the spec: "returns 0.0 for an absent key". *)
Definition Get (s : t) (key : N) : W := default w0 (values_ s !! key).

(** Modelled from the spec: "weight[id] += delta; creates the key if growth
    is allowed", and after [StopGrowth] an [Add] on a new key "leaves Exists
    false and Get at 0.0". *)
Definition Add (s : t) (key : N) (delta : W) : t :=
  match values_ s !! key with
  | Some w => {| values_ := <[key := wadd w delta]> (values_ s);
                 growth_stopped_ := growth_stopped_ s |}
  | None =>
      if growth_stopped_ s then s
      else {| values_ := <[key := wadd w0 delta]> (values_ s);
              growth_stopped_ := growth_stopped_ s |}
  end.

(** Modelled from the spec: [Add(const SparseParameterVector &)], the
    "add into weights" of [Finalize]: every entry of [other] is added to
    this store with [Add]. *)
Definition AddVector (s other : t) : t :=
  map_fold (λ key value acc, Add acc key value) s (values_ other).

(** Modelled from the spec: "multiplies every stored weight by factor". *)
Definition Scale (s : t) (scale_factor : W) : t :=
  {| values_ := (λ w, wmul w scale_factor) <$> values_ s;
     growth_stopped_ := growth_stopped_ s |}.

(** Modelled from the spec: "sum of squares of all stored weights". *)
Definition GetSquaredNorm (s : t) : W :=
  map_fold (λ _ w acc, wadd acc (wmul w w)) w0 (values_ s).

End store.
Global Arguments t : clear implicits.
End SparseParameterVector.

(** ** SparseLabeledParameterVector (the labeled weight store)

    Written from section 4.2 of the specification, the header being absent
    as well. *)

(** Modelled from the spec: what the growth lock of the labeled store
    covers.  Section 4.2 gives the store "the same primitives as WeightStore
    but the key is (feature id, label id)", so that the lock refuses every
    unseen pair; Parameters.h says of a locked vector that "no features can
    be added", which leaves a feature the store has free to take new labels.
    [lock_covers_labels] is [true] for the first reading and [false] for the
    second.  It is a parameter of the model: whatever is proved below holds
    for both. *)
Class LabelLock := lock_covers_labels : bool.

Definition lock_pairs : LabelLock := true.
Definition lock_features : LabelLock := false.

Module SparseLabeledParameterVector.
Section store.
Context `{DoubleOps W} {lock : LabelLock}.

(** Modelled from the spec: [SparseLabeledParameterVector] is missing from
    the sources.  "Conceptually a mapping from feature id to a small sparse
    vector over label ids." *)
Record t := {
  values_ : gmap N (gmap Z W);
  growth_stopped_ : bool
}.

(** Modelled from the spec: a freshly allocated store. *)
Definition Initialize : t := {| values_ := ∅; growth_stopped_ := false |}.

(** Modelled from the spec: see [SparseParameterVector.StopGrowth]. *)
Definition StopGrowth (s : t) : t :=
  {| values_ := values_ s; growth_stopped_ := true |}.

(** Modelled from the spec: see [SparseParameterVector.StopGrowth]. *)
Definition AllowGrowth (s : t) : t :=
  {| values_ := values_ s; growth_stopped_ := false |}.

(** Modelled from the spec: "number of distinct labeled-feature keys (a
    labeled feature with N active labels still counts once)". *)
Definition Size (s : t) : nat := size (values_ s).

(** Modelled from the spec: whether the feature id has labeled weights. *)
Definition Exists (s : t) (key : N) : bool :=
  bool_decide (is_Some (values_ s !! key)).

(** Modelled from the spec: whether the (feature, label) pair is a key of
    the store. *)
Definition HasWeight (s : t) (key : N) (l : Z) : Prop :=
  is_Some (values_ s !! key ≫= (.!! l)).

(** Modelled from the spec: the weight of one (feature, label) pair, "0.0
    where the pair is absent". *)
Definition GetWeight (s : t) (key : N) (l : Z) : W :=
  default w0 (values_ s !! key ≫= (.!! l)).

(** Modelled from the spec: "returns one weight per requested label (0.0 where
    the pair is absent) and an overall found flag that is false only if the
    feature id itself has no labeled weights at all"; Parameters.h adds "in
    which case the label_scores will be an empty vector". *)
Definition Get (s : t) (key : N) (labels : list Z) : bool * list W :=
  match values_ s !! key with
  | None => (false, [])
  | Some lw => (true, (λ l, default w0 (lw !! l)) <$> labels)
  end.

(** Modelled from the spec: whether the store refuses to create the entry
    of a label of [key]: never while it may grow; once growth is stopped,
    for a feature it does not have, and for a feature it has when the lock
    covers the labels. *)
Definition refuses (s : t) (key : N) : bool :=
  growth_stopped_ s && (lock_covers_labels || negb (Exists s key)).

(** Modelled from the spec: "updates a single (feature,label) entry", with the
    growth discipline of the unlabeled store: an existing entry is updated,
    a new one is created unless the lock refuses it. *)
Definition Add (s : t) (key : N) (l : Z) (delta : W) : t :=
  match values_ s !! key ≫= (.!! l) with
  | Some w =>
      {| values_ := <[key := <[l := wadd w delta]> (default ∅ (values_ s !! key))]>
                      (values_ s);
         growth_stopped_ := growth_stopped_ s |}
  | None =>
      if refuses s key then s
      else {| values_ := <[key := <[l := wadd w0 delta]> (default ∅ (values_ s !! key))]>
                           (values_ s);
              growth_stopped_ := growth_stopped_ s |}
  end.

(** Modelled from the spec: [Add(const SparseLabeledParameterVector &)],
    every (feature, label) entry of [other] is added with [Add]. *)
Definition AddVector (s other : t) : t :=
  map_fold (λ key lw acc, map_fold (λ l value acc', Add acc' key l value) acc lw)
           s (values_ other).

(** Modelled from the spec: "multiplies every stored weight by factor". *)
Definition Scale (s : t) (scale_factor : W) : t :=
  {| values_ := (λ lw : gmap Z W, (λ w, wmul w scale_factor) <$> lw) <$> values_ s;
     growth_stopped_ := growth_stopped_ s |}.

(** Modelled from the spec: "sum of squares of all stored weights". *)
Definition GetSquaredNorm (s : t) : W :=
  map_fold (λ _ lw acc, map_fold (λ _ w acc', wadd acc' (wmul w w)) acc lw)
           w0 (values_ s).

End store.
Global Arguments t : clear implicits.
End SparseLabeledParameterVector.


(** ** Parameters (Parameters.h, 131-359) *)

Module Parameters.
Module SPV := SparseParameterVector.
Module SLPV := SparseLabeledParameterVector.
Module FLC := FeatureLabelCache.
Section parameters.
Context `{DoubleOps W} {lock : LabelLock}.

Record t := {
  use_average_ : bool;
  weights_ : SPV.t W;
  averaged_weights_ : SPV.t W;
  labeled_weights_ : SLPV.t W;
  averaged_labeled_weights_ : SLPV.t W;
  caching_weights_ : FLC.t W
}.

(** [Parameters() { use_average_ = true; }] with its members default
    constructed. *)
Definition new : t := {|
  use_average_ := true;
  weights_ := SPV.Initialize;
  averaged_weights_ := SPV.Initialize;
  labeled_weights_ := SLPV.Initialize;
  averaged_labeled_weights_ := SLPV.Initialize;
  caching_weights_ := FLC.new
|}.

Definition Initialize (p : t) (use_average : bool) : t := {|
  use_average_ := use_average;
  weights_ := SPV.Initialize;
  averaged_weights_ :=
    if use_average then SPV.Initialize else averaged_weights_ p;
  labeled_weights_ := SLPV.Initialize;
  averaged_labeled_weights_ :=
    if use_average then SLPV.Initialize else averaged_labeled_weights_ p;
  caching_weights_ := caching_weights_ p
|}.

Definition StopGrowth (p : t) : t := {|
  use_average_ := use_average_ p;
  weights_ := SPV.StopGrowth (weights_ p);
  averaged_weights_ := SPV.StopGrowth (averaged_weights_ p);
  labeled_weights_ := SLPV.StopGrowth (labeled_weights_ p);
  averaged_labeled_weights_ := SLPV.StopGrowth (averaged_labeled_weights_ p);
  caching_weights_ := caching_weights_ p
|}.

Definition AllowGrowth (p : t) : t := {|
  use_average_ := use_average_ p;
  weights_ := SPV.AllowGrowth (weights_ p);
  averaged_weights_ := SPV.AllowGrowth (averaged_weights_ p);
  labeled_weights_ := SLPV.AllowGrowth (labeled_weights_ p);
  averaged_labeled_weights_ := SLPV.AllowGrowth (averaged_labeled_weights_ p);
  caching_weights_ := caching_weights_ p
|}.

Definition Size (p : t) : nat :=
  (SPV.Size (weights_ p) + SLPV.Size (labeled_weights_ p))%nat.

Definition Exists (p : t) (key : N) : bool := SPV.Exists (weights_ p) key.

Definition ExistsLabeled (p : t) (key : N) : bool :=
  SLPV.Exists (labeled_weights_ p) key.

(** [double Get(uint64_t key)] *)
Definition Get (p : t) (key : N) : W := SPV.Get (weights_ p) key.

(** [bool Get(uint64_t key, const vector<int> &labels,
             vector<double> *label_scores)]: the flag and the new content of
    [*label_scores]. *)
Definition GetLabeled (p : t) (key : N) (labels : list Z) : bool * list W :=
  SLPV.Get (labeled_weights_ p) key labels.

Definition GetSquaredNorm (p : t) : W :=
  wadd (SPV.GetSquaredNorm (weights_ p))
       (SLPV.GetSquaredNorm (labeled_weights_ p)).

(** [for (j ...) score += Get(features[j]);] *)
Definition ComputeScore (p : t) (features : list N) : W :=
  foldl (λ score j, wadd score (Get p (features !!! j)))
        w0 (seq 0 (length features)).

(** The inner loop of [ComputeLabelScores]:
    [for (k ...) scores[k] += label_scores[k];] (on the vector [scores] points to) *)
Definition AddLabelScores (num_labels : nat) (scores label_scores : list W)
  : list W :=
  foldl (λ scores k, add_at scores k (label_scores !!! k))
        scores (seq 0 num_labels).

(** One round of the loop over [j] in [ComputeLabelScores].  The local
    [label_scores] is overwritten as a whole by every [Get], so it is not
    threaded from one round to the next. *)
Definition ComputeLabelScores_feature (p : t) (labels : list Z)
    (scores : list W) (f : N) : list W :=
  let '(found, label_scores) := GetLabeled p f labels in
  if negb found then scores
  else AddLabelScores (length labels) scores label_scores.

(** [scores] is an output parameter, cleared and resized first: the result
    is its content at return. *)
Definition ComputeLabelScores (p : t) (features : list N) (labels : list Z)
  : list W :=
  foldl (λ scores j, ComputeLabelScores_feature p labels scores (features !!! j))
        (replicate (length labels) w0) (seq 0 (length features)).

(** The state of the first inner loop of [ComputeLabelScoresWithCache]:
    the vector [scores], [reduced_labels], [adjust_new_index_reduced_labels] and the
    cache. *)
Definition probe_state : Type := list W * list Z * list nat * FLC.t W.

(** The body of [for (k ...)] at lines 246-257. *)
Definition probe (f : N) (labels : list Z) (st : probe_state) (k : nat)
  : probe_state :=
  let '(scores, reduced_labels, adjust, c) := st in
  let caching_key := {| feature := f; label := labels !!! k |} in
  match FLC.Find c caching_key with
  | None =>
      (scores, reduced_labels ++ [labels !!! k], adjust ++ [k],
       FLC.IncrementMisses c)
  | Some caching_value =>
      (add_at scores k caching_value, reduced_labels, adjust,
       FLC.IncrementHits c)
  end.

(** The body of [for (k ...)] at lines 260-266. *)
Definition fill (f : N) (reduced_labels : list Z) (adjust : list nat)
    (label_scores : list W) (st : list W * FLC.t W) (k : nat)
  : list W * FLC.t W :=
  let '(scores, c) := st in
  (add_at scores (adjust !!! k) (label_scores !!! k),
   FLC.Insert c {| feature := f; label := reduced_labels !!! k |}
              (label_scores !!! k)).

(** One round of the loop over [j] at lines 241-267, on the vector [scores] and the
    cache; the stores are only read. *)
Definition ComputeLabelScoresWithCache_feature (p : t) (labels : list Z)
    (st : list W * FLC.t W) (f : N) : list W * FLC.t W :=
  let '(scores, c) := st in
  if negb (ExistsLabeled p f) then st
  else
    let '(scores1, reduced_labels, adjust, c1) :=
      foldl (probe f labels) (scores, [], [], c) (seq 0 (length labels)) in
    if (length reduced_labels =? 0)%nat then (scores1, c1)
    else
      let '(found, label_scores) := GetLabeled p f reduced_labels in
      if negb found then (scores1, c1)
      else foldl (fill f reduced_labels adjust label_scores) (scores1, c1)
                 (seq 0 (length reduced_labels)).

(** The scores written and the cache at return. *)
Definition ComputeLabelScoresWithCache_run (p : t) (features : list N)
    (labels : list Z) : list W * FLC.t W :=
  foldl (λ st j, ComputeLabelScoresWithCache_feature p labels st (features !!! j))
        (replicate (length labels) w0, caching_weights_ p)
        (seq 0 (length features)).

(** The method is not [const]: it returns the scores and the object with
    its cache updated. *)
Definition ComputeLabelScoresWithCache (p : t) (features : list N)
    (labels : list Z) : list W * t :=
  let '(scores, c) := ComputeLabelScoresWithCache_run p features labels in
  (scores,
   {| use_average_ := use_average_ p;
      weights_ := weights_ p;
      averaged_weights_ := averaged_weights_ p;
      labeled_weights_ := labeled_weights_ p;
      averaged_labeled_weights_ := averaged_labeled_weights_ p;
      caching_weights_ := c |}).

(** Every cached entry is the current weight of its pair in the labeled
    store ([0.0] for an absent pair). *)
Definition cache_coherent (p : t) (c : FLC.t W) : Prop :=
  ∀ key v, FLC.Find c key = Some v →
           v = SLPV.GetWeight (labeled_weights_ p) (feature key) (label key).

(** The (feature, label) lookups a call of [ComputeLabelScoresWithCache]
    makes in the cache: one per label for every listed feature that has
    labeled weights. *)
Definition cache_queries (p : t) (features : list N) (labels : list Z) : nat :=
  (length (filter (λ f, ExistsLabeled p f = true) features) * length labels)%nat.

Definition Scale (p : t) (scale_factor : W) : t := {|
  use_average_ := use_average_ p;
  weights_ := SPV.Scale (weights_ p) scale_factor;
  averaged_weights_ := averaged_weights_ p;
  labeled_weights_ := SLPV.Scale (labeled_weights_ p) scale_factor;
  averaged_labeled_weights_ := averaged_labeled_weights_ p;
  caching_weights_ := caching_weights_ p
|}.

(** The body of the loop of [MakeGradientStep] for [features[j] = f]. *)
Definition MakeGradientStep_feature (eta : W) (iteration : Z) (gradient : W)
    (p : t) (f : N) : t := {|
  use_average_ := use_average_ p;
  weights_ := SPV.Add (weights_ p) f (wmul (wneg eta) gradient);
  averaged_weights_ :=
    if use_average_ p
    then SPV.Add (averaged_weights_ p) f
                 (wmul (wmul (wof_int iteration) eta) gradient)
    else averaged_weights_ p;
  labeled_weights_ := labeled_weights_ p;
  averaged_labeled_weights_ := averaged_labeled_weights_ p;
  caching_weights_ := caching_weights_ p
|}.

Definition MakeGradientStep (p : t) (features : list N) (eta : W)
    (iteration : Z) (gradient : W) : t :=
  foldl (λ p j, MakeGradientStep_feature eta iteration gradient p
                  (features !!! j))
        p (seq 0 (length features)).

Definition MakeLabelGradientStep (p : t) (features : list N) (eta : W)
    (iteration : Z) (l : Z) (gradient : W) : t :=
  let lw :=
    foldl (λ s j, SLPV.Add s (features !!! j) l (wmul (wneg eta) gradient))
          (labeled_weights_ p) (seq 0 (length features)) in
  let alw :=
    if use_average_ p
    then foldl (λ s j, SLPV.Add s (features !!! j) l
                         (wmul (wmul (wof_int iteration) eta) gradient))
               (averaged_labeled_weights_ p) (seq 0 (length features))
    else averaged_labeled_weights_ p in
  {| use_average_ := use_average_ p;
     weights_ := weights_ p;
     averaged_weights_ := averaged_weights_ p;
     labeled_weights_ := lw;
     averaged_labeled_weights_ := alw;
     caching_weights_ := caching_weights_ p |}.

Definition Finalize (p : t) (num_iterations : Z) : t :=
  if use_average_ p then
    let aw := SPV.Scale (averaged_weights_ p)
                        (wdiv w1 (wof_int num_iterations)) in
    let alw := SLPV.Scale (averaged_labeled_weights_ p)
                          (wdiv w1 (wof_int num_iterations)) in
    {| use_average_ := use_average_ p;
       weights_ := SPV.AddVector (weights_ p) aw;
       averaged_weights_ := aw;
       labeled_weights_ := SLPV.AddVector (labeled_weights_ p) alw;
       averaged_labeled_weights_ := alw;
       caching_weights_ := caching_weights_ p |}
  else p.

Definition GetCachingWeightsHits (p : t) : Z := FLC.hits (caching_weights_ p).

Definition GetCachingWeightsMisses (p : t) : Z :=
  FLC.misses (caching_weights_ p).

End parameters.
Global Arguments t : clear implicits.
End Parameters.


(** ** The training driver's calls *)

Module Driver.
Section driver.
Context `{DoubleOps W} {lock : LabelLock}.

(** The calls a training driver makes on a [Parameters] object between
    [Initialize] and [Finalize]. *)
Inductive call :=
  | CallStopGrowth
  | CallAllowGrowth
  | CallMakeGradientStep (features : list N) (eta : W) (iteration : Z)
                         (gradient : W)
  | CallMakeLabelGradientStep (features : list N) (eta : W) (iteration : Z)
                              (l : Z) (gradient : W).


Definition run_call (p : Parameters.t W) (c : call) : Parameters.t W :=
  match c with
  | CallStopGrowth => Parameters.StopGrowth p
  | CallAllowGrowth => Parameters.AllowGrowth p
  | CallMakeGradientStep features eta iteration gradient =>
      Parameters.MakeGradientStep p features eta iteration gradient
  | CallMakeLabelGradientStep features eta iteration l gradient =>
      Parameters.MakeLabelGradientStep p features eta iteration l gradient
  end.

Definition run_calls (p : Parameters.t W) (calls : list call)
  : Parameters.t W :=
  foldl run_call p calls.

(** The growth states of the four stores. *)
Definition flags (p : Parameters.t W) : bool * bool * bool * bool :=
  (SparseParameterVector.growth_stopped_ (Parameters.weights_ p),
   SparseParameterVector.growth_stopped_ (Parameters.averaged_weights_ p),
   SparseLabeledParameterVector.growth_stopped_ (Parameters.labeled_weights_ p),
   SparseLabeledParameterVector.growth_stopped_
     (Parameters.averaged_labeled_weights_ p)).




End driver.
Global Arguments call : clear implicits.
End Driver.

(** ** Averaging: the lazy running sum and its naive reference *)

Module Averaging.
Section averaging.
Context `{DoubleOps W} {lock : LabelLock}.

(** One [MakeGradientStep] call of the training loop: the features, the
    step size [eta] and the gradient. *)
Definition update : Type := list N * W * W.

(** The training loop: one update per iteration, the first one at
    iteration number [iteration], the next at [iteration + 1], ... *)
Fixpoint train (p : Parameters.t W) (iteration : Z) (updates : list update)
  : Parameters.t W :=
  match updates with
  | [] => p
  | (features, eta, gradient) :: rest =>
      train (Parameters.MakeGradientStep p features eta iteration gradient)
            (iteration + 1) rest
  end.

(** What the code leaves as live weight of [f]: the updates are made on
    [p], numbering the iterations from [first], then [Finalize] is called
    with the number of updates. *)
Definition lazy_average (p : Parameters.t W) (first : Z)
    (updates : list update) (f : N) : W :=
  Parameters.Get
    (Parameters.Finalize (train p first updates) (Z.of_nat (length updates)))
    f.

(** The naive reference, after the specification's words: keep the whole
    weight vector, apply "weight -= eta * gradient to every listed feature",
    take a snapshot after every update, and at the end literally sum the
    snapshots and divide by their number. *)
Definition naive_update (u : N → W) (features : list N) (eta gradient : W)
  : N → W :=
  foldl (λ u f x, if decide (x = f) then wadd (u x) (wneg (wmul eta gradient))
                  else u x)
        u features.

Fixpoint naive_snapshots (u : N → W) (updates : list update)
  : list (N → W) :=
  match updates with
  | [] => []
  | (features, eta, gradient) :: rest =>
      let u' := naive_update u features eta gradient in
      u' :: naive_snapshots u' rest
  end.

(** The weights of the naive reference after all the updates. *)
Definition naive_final (u : N → W) (updates : list update) : N → W :=
  foldl (λ u '(features, eta, gradient), naive_update u features eta gradient)
        u updates.

Definition snapshot_sum (snapshots : list (N → W)) (f : N) : W :=
  foldr (λ u acc, wadd (u f) acc) w0 snapshots.

(** The average of the snapshots the reference takes when it starts from
    the weights [u]. *)
Definition naive_average (u : N → W) (updates : list update) (f : N) : W :=
  wdiv (snapshot_sum (naive_snapshots u updates) f)
       (wof_int (Z.of_nat (length updates))).

(** An object that averages and whose unlabeled stores may grow, as it is
    between [Initialize(true)] and [Finalize]. *)
Definition averaging (p : Parameters.t W) : Prop :=
  Parameters.use_average_ p = true
  ∧ SparseParameterVector.growth_stopped_ (Parameters.weights_ p) = false
  ∧ SparseParameterVector.growth_stopped_ (Parameters.averaged_weights_ p)
    = false.

End averaging.
Global Arguments update : clear implicits.
End Averaging.

(** ** Averaging of the labeled weights *)

Module LabeledAveraging.
Section labeled_averaging.
Context {lock : LabelLock}.

(** One [MakeLabelGradientStep] call: the features, the step size, the
    label and the gradient. *)
Definition update : Type := list N * Qc * Z * Qc.

(** One update per iteration, the first at iteration number [iteration]. *)
Fixpoint train (p : Parameters.t Qc) (iteration : Z) (updates : list update)
  : Parameters.t Qc :=
  match updates with
  | [] => p
  | (features, eta, l, gradient) :: rest =>
      train (Parameters.MakeLabelGradientStep p features eta iteration l gradient)
            (iteration + 1) rest
  end.

(** The live weight of the pair [(f, l)] after training on a fresh
    averaging object and [Finalize] with the number of updates. *)
Definition lazy_average (first : Z) (updates : list update) (f : N) (l : Z)
  : Qc :=
  SparseLabeledParameterVector.GetWeight
    (Parameters.labeled_weights_
       (Parameters.Finalize
          (train (Parameters.Initialize Parameters.new true) first updates)
          (Z.of_nat (length updates))))
    f l.

(** The naive reference on a dense table of (feature, label) weights. *)
Definition naive_update (u : N → Z → Qc) (features : list N) (eta : Qc)
    (l : Z) (gradient : Qc) : N → Z → Qc :=
  foldl (λ u f x y, if decide (x = f ∧ y = l)
                    then (u x y - eta * gradient)%Qc else u x y)
        u features.

Fixpoint naive_snapshots (u : N → Z → Qc) (updates : list update)
  : list (N → Z → Qc) :=
  match updates with
  | [] => []
  | (features, eta, l, gradient) :: rest =>
      let u' := naive_update u features eta l gradient in
      u' :: naive_snapshots u' rest
  end.

Definition snapshot_sum (snapshots : list (N → Z → Qc)) (f : N) (l : Z) : Qc :=
  foldr (λ u acc, (u f l + acc)%Qc) 0%Qc snapshots.

Definition naive_average (updates : list update) (f : N) (l : Z) : Qc :=
  (1 / Qc_of_Z (Z.of_nat (length updates))
   * snapshot_sum (naive_snapshots (λ _ _, 0%Qc) updates) f l)%Qc.

(** An object that averages and whose labeled stores may grow. *)
Definition averaging (p : Parameters.t Qc) : Prop :=
  Parameters.use_average_ p = true
  ∧ SparseLabeledParameterVector.growth_stopped_ (Parameters.labeled_weights_ p)
    = false
  ∧ SparseLabeledParameterVector.growth_stopped_
      (Parameters.averaged_labeled_weights_ p) = false.

End labeled_averaging.
End LabeledAveraging.

(** ** Decoder: cost-augmented decoding

    [DependencyLabelerDecoder.h] only declares the decoder; what follows is
    written from section 4.4 of the specification, in exact arithmetic. *)

Module Decoder.

(** Modelled from the spec: the body of [DecodeCostAugmented] is missing
    from the sources.  An output is "a dense array aligned with parts". *)
Definition output : Type := list Qc.

(** Modelled from the spec: the score of a structure, the sum of the scores
    of its parts weighted by the output. *)
Definition score (scores : list Qc) (y : output) : Qc :=
  foldr Qcplus 0%Qc (zip_with Qcmult scores y).


(** Modelled from the spec: an exact argmax over the legal structures;
    [None] is the "fatal configuration error" of a candidate list with no
    legal structure. *)
Fixpoint best (objective : output → Qc) (legal : list output)
  : option output :=
  match legal with
  | [] => None
  | y :: rest =>
      match best objective rest with
      | None => Some y
      | Some z => if decide (objective z ≤ objective y)%Qc then Some y else Some z
      end
  end.

(** Modelled from the spec: "returns the highest-scoring structure consistent
    with the task's hard constraints"; [legal] enumerates the structures the
    instance, its parts and the task configuration allow. *)
Definition Decode (legal : list output) (scores : list Qc) : option output :=
  best (score scores) legal.


End Decoder.


(** * Properties *)

(** ** Index loops over vectors *)

Lemma foldl_ext_elem {A B : Type} (f g : B → A → B) (b : B) (l : list A) :
  (∀ acc x, x ∈ l → f acc x = g acc x) → foldl f b l = foldl g b l.
Proof.
  revert b. induction l as [|x l IH]; intros b Hfg; [done|].
  simpl. rewrite Hfg by left. apply IH. intros acc y Hy. apply Hfg. by right.
Qed.

(** A loop [for (j = 0; j < v.size(); ++j)] that reads only [v[j]] is a
    left fold over [v]. *)
Lemma foldl_seq_lookup {A B : Type} `{Inhabited A} (g : B → A → B) (b : B)
    (l : list A) :
  foldl (λ acc j, g acc (l !!! j)) b (seq 0 (length l)) = foldl g b l.
Proof.
  induction l as [|x l IH] using rev_ind; [done|].
  rewrite length_app, Nat.add_1_r, seq_S, !foldl_app. simpl.
  rewrite list_lookup_total_middle by done. f_equal.
  rewrite <- IH. apply foldl_ext_elem. intros acc j Hj.
  apply elem_of_seq in Hj. by rewrite lookup_total_app_l by lia.
Qed.

(** ** FeatureLabelCache *)

Section cache_facts.
Context {W : Type}.
Implicit Types (c : FeatureLabelCache.t W) (key : FeatureLabelPair).
Import FeatureLabelCache.

Lemma Find_IncrementHits c key : Find (IncrementHits c) key = Find c key.
Proof. done. Qed.

Lemma Find_IncrementMisses c key : Find (IncrementMisses c) key = Find c key.
Proof. done. Qed.

Lemma Find_Insert_ne c key key' value :
  key ≠ key' → Find (Insert c key value) key' = Find c key'.
Proof.
  intros Hne. unfold Find, Insert.
  destruct (cache_ c !! key); [done|]. simpl. by rewrite lookup_insert_ne.
Qed.

Lemma Insert_counters c key value :
  hits_ (Insert c key value) = hits_ c
  ∧ misses_ (Insert c key value) = misses_ c.
Proof. unfold Insert. by destruct (cache_ c !! key). Qed.

(** C9. Insertion into the cache is first-write-wins: when [Find] misses
    [key], after [Insert(key, value)] it finds [value]; when [Find] already
    finds a value [v0] for [key], after [Insert(key, value)], whatever
    [value] is, it still finds [v0]. *)
Theorem Insert_first_write_wins c key value :
  (Find c key = None → Find (Insert c key value) key = Some value)
  ∧ (∀ v0, Find c key = Some v0 → Find (Insert c key value) key = Some v0).
Proof.
  unfold Find, Insert. split.
  - intros ->. simpl. apply lookup_insert_eq.
  - intros v0 Hv0. by rewrite Hv0.
Qed.

End cache_facts.

Lemma Insert_first_write_wins_witness :
  let k := {| feature := 7; label := 2 |} in
  let c0 : FeatureLabelCache.t Z := FeatureLabelCache.new in
  let c1 := FeatureLabelCache.Insert c0 k 5%Z in
  FeatureLabelCache.Find c1 k = Some 5%Z
  ∧ FeatureLabelCache.Find (FeatureLabelCache.Insert c1 k 9%Z) k = Some 5%Z.
Proof.
  intros k c0 c1. split.
  - apply (proj1 (Insert_first_write_wins c0 k 5%Z)). reflexivity.
  - apply (proj2 (Insert_first_write_wins c1 k 9%Z) 5%Z). reflexivity.
Defined.

(** ** GenderNumberStatistics *)

Section gender_number_facts.
Import GenderNumberStatistics.
Implicit Types (s : GenderNumberStatistics.t) (phrase counts : list Z).

(** C10. [AddPhrase(phrase, counts)] returns true exactly when [phrase] was
    not present, and then [counts] is recorded as its entry; when [phrase]
    is present it returns false and the object, the counts stored for
    [phrase] included, is unchanged. *)
Theorem AddPhrase_first_wins s phrase counts :
  ((AddPhrase s phrase counts).1 = true ↔ phrase_counts_ s !! phrase = None)
  ∧ (phrase_counts_ s !! phrase = None →
     phrase_counts_ (AddPhrase s phrase counts).2
     = <[phrase := counts]> (phrase_counts_ s)
     ∧ phrase_counts_ (AddPhrase s phrase counts).2 !! phrase = Some counts)
  ∧ (is_Some (phrase_counts_ s !! phrase) →
     AddPhrase s phrase counts = (false, s)).
Proof.
  unfold AddPhrase. split_and!.
  - destruct (phrase_counts_ s !! phrase); simpl; split; done.
  - intros ->. simpl. split; [done|]. apply lookup_insert_eq.
  - intros [x ->]. done.
Qed.

End gender_number_facts.

Lemma AddPhrase_first_wins_witness :
  let s0 := GenderNumberStatistics.new in
  let s1 := (GenderNumberStatistics.AddPhrase s0 [3; 4]%Z [1; 0; 2]%Z).2 in
  GenderNumberStatistics.phrase_counts_ s1 !! [3; 4]%Z = Some [1; 0; 2]%Z
  ∧ GenderNumberStatistics.AddPhrase s1 [3; 4]%Z [9; 9; 9]%Z = (false, s1).
Proof.
  intros s0 s1. split.
  - apply (proj1 (proj2 (AddPhrase_first_wins s0 [3; 4]%Z [1; 0; 2]%Z))).
    reflexivity.
  - apply (proj2 (proj2 (AddPhrase_first_wins s1 [3; 4]%Z [9; 9; 9]%Z))).
    exists [1; 0; 2]%Z. reflexivity.
Defined.

(** ** The unlabeled store *)

Section store_facts.
Context `{DoubleOps W} {lock : LabelLock}.
Import SparseParameterVector.
Implicit Types (s : SparseParameterVector.t W) (key : N).

Lemma Get_absent s key : Exists s key = false → Get s key = w0.
Proof.
  unfold Exists, Get. intros He. apply bool_decide_eq_false in He.
  destruct (values_ s !! key) eqn:E; [|done]. destruct He. by eexists.
Qed.

Lemma growth_stopped_Add s key delta :
  growth_stopped_ (Add s key delta) = growth_stopped_ s.
Proof.
  unfold Add. destruct (values_ s !! key); [done|].
  by destruct (growth_stopped_ s) eqn:E.
Qed.

(** While the store may grow, [Add] is [weight[key] += delta] on the
    weights [Get] reads. *)
Lemma Get_Add s key delta key' :
  growth_stopped_ s = false →
  Get (Add s key delta) key'
  = if decide (key' = key) then wadd (Get s key) delta else Get s key'.
Proof.
  intros Hg. unfold Get, Add. rewrite Hg.
  destruct (values_ s !! key) eqn:E; simpl;
    (case_decide as Hk; [subst key'; by rewrite lookup_insert_eq
                        | by rewrite lookup_insert_ne]).
Qed.

Lemma dom_Add s key delta :
  growth_stopped_ s = false →
  dom (values_ (Add s key delta)) = {[key]} ∪ dom (values_ s).
Proof.
  intros Hg. unfold Add. rewrite Hg.
  destruct (values_ s !! key); simpl; apply dom_insert_L.
Qed.

Lemma dom_Add_stopped s key delta :
  growth_stopped_ s = true →
  dom (values_ (Add s key delta)) = dom (values_ s).
Proof.
  intros Hg. unfold Add. rewrite Hg.
  destruct (values_ s !! key) eqn:E; simpl; [|done].
  rewrite dom_insert_L. apply subseteq_union_1_L, singleton_subseteq_l.
  by apply elem_of_dom.
Qed.

Lemma elem_of_dom_Add s key delta key' :
  key' ∈ dom (values_ (Add s key delta))
  ↔ key' ∈ dom (values_ s) ∨ (key' = key ∧ growth_stopped_ s = false).
Proof.
  destruct (growth_stopped_ s) eqn:Hg.
  - rewrite dom_Add_stopped by done. split; [by left|].
    by intros [?|[_ ?]].
  - rewrite dom_Add, elem_of_union, elem_of_singleton by done.
    split; [intros [->|?]; [by right|by left]|].
    intros [?|[-> _]]; [by right|by left].
Qed.

Lemma lookup_Scale s c key :
  values_ (Scale s c) !! key = (λ w, wmul w c) <$> values_ s !! key.
Proof. unfold Scale. simpl. apply lookup_fmap. Qed.

End store_facts.

(** ** Parameters: scoring, scaling, norm, finalisation *)

Section parameters_facts.
Context `{DoubleOps W} {lock : LabelLock}.
Import Parameters.
Implicit Types (p : Parameters.t W) (features : list N) (labels : list Z).

Lemma ComputeScore_foldl p features :
  ComputeScore p features = foldl (λ score f, wadd score (Get p f)) w0 features.
Proof.
  unfold ComputeScore.
  apply (foldl_seq_lookup (λ score f, wadd score (Get p f))).
Qed.

(** C4. [ComputeScore(features)] is the sum, in list order and starting from
    [0.0], of [Get] over the listed features, each occurrence of a feature
    counted; and [Get] is [0.0] for an absent feature id. *)
Theorem ComputeScore_sum_of_Get p features :
  ComputeScore p features = wsum (Get p <$> features)
  ∧ (∀ f, Exists p f = false → Get p f = w0).
Proof.
  split.
  - rewrite ComputeScore_foldl. unfold wsum.
    generalize w0. induction features as [|f fs IH]; intros acc; [done|].
    simpl. apply IH.
  - intros f. apply Get_absent.
Qed.

(** C5. Without averaging [Finalize] changes nothing: the object is the
    same, hence its four stores and all that is read from them. *)
Theorem Finalize_without_average_noop p num_iterations :
  use_average_ p = false →
  Finalize p num_iterations = p
  ∧ weights_ (Finalize p num_iterations) = weights_ p
  ∧ averaged_weights_ (Finalize p num_iterations) = averaged_weights_ p
  ∧ labeled_weights_ (Finalize p num_iterations) = labeled_weights_ p
  ∧ averaged_labeled_weights_ (Finalize p num_iterations)
    = averaged_labeled_weights_ p
  ∧ (∀ key, Get (Finalize p num_iterations) key = Get p key)
  ∧ (∀ features,
       ComputeScore (Finalize p num_iterations) features
       = ComputeScore p features)
  ∧ (∀ features labels,
       ComputeLabelScores (Finalize p num_iterations) features labels
       = ComputeLabelScores p features labels)
  ∧ GetSquaredNorm (Finalize p num_iterations) = GetSquaredNorm p.
Proof.
  intros Hu. assert (Finalize p num_iterations = p) as ->; [|done].
  unfold Finalize. by rewrite Hu.
Qed.

(** C6. [Scale] multiplies every weight of the two live stores by the
    factor and leaves the two averaged stores as they are;
    [GetSquaredNorm] adds the squared norms of the two live stores and
    does not depend on the averaged ones. *)
Theorem Scale_and_norm_on_live_stores p scale_factor :
  (∀ key,
     SPV.values_ (weights_ (Scale p scale_factor)) !! key
     = (λ w, wmul w scale_factor) <$> SPV.values_ (weights_ p) !! key)
  ∧ (∀ key l,
       SLPV.values_ (labeled_weights_ (Scale p scale_factor)) !! key ≫= (.!! l)
       = (λ w, wmul w scale_factor)
           <$> (SLPV.values_ (labeled_weights_ p) !! key ≫= (.!! l)))
  ∧ averaged_weights_ (Scale p scale_factor) = averaged_weights_ p
  ∧ averaged_labeled_weights_ (Scale p scale_factor)
    = averaged_labeled_weights_ p
  ∧ GetSquaredNorm p
    = wadd (SPV.GetSquaredNorm (weights_ p))
           (SLPV.GetSquaredNorm (labeled_weights_ p))
  ∧ (∀ aw alw,
       GetSquaredNorm {| use_average_ := use_average_ p;
                         weights_ := weights_ p;
                         averaged_weights_ := aw;
                         labeled_weights_ := labeled_weights_ p;
                         averaged_labeled_weights_ := alw;
                         caching_weights_ := caching_weights_ p |}
       = GetSquaredNorm p).
Proof.
  split_and!; try done.
  - intros key. apply lookup_Scale.
  - intros key l. simpl. rewrite lookup_fmap.
    destruct (SLPV.values_ (labeled_weights_ p) !! key) as [lw|]; [|done].
    simpl. apply lookup_fmap.
Qed.

End parameters_facts.

Lemma Finalize_without_average_noop_witness :
  let p : Parameters.t Qc :=
    Parameters.MakeGradientStep
      (Parameters.Initialize Parameters.new false) [7; 9]%N 1%Qc 3 1%Qc in
  Parameters.Finalize (lock := lock_features) p 5 = p.
Proof.
  intros p.
  apply (proj1 (Finalize_without_average_noop p 5 eq_refl)).
Defined.

(** ** The labeled store *)

Section labeled_store_facts.
Context `{DoubleOps W} {lock : LabelLock}.
Import SparseLabeledParameterVector.
Implicit Types (s : SparseLabeledParameterVector.t W) (key : N) (l : Z).

Lemma growth_stopped_Add_labeled s key l delta :
  growth_stopped_ (Add s key l delta) = growth_stopped_ s.
Proof.
  unfold Add. destruct (values_ s !! key ≫= (.!! l)); [done|].
  by destruct (refuses s key).
Qed.

(** A store that may grow refuses nothing. *)
Lemma refuses_allowed s key : growth_stopped_ s = false → refuses s key = false.
Proof. unfold refuses. by intros ->. Qed.

(** A store whose growth is stopped refuses the features it does not
    have, whatever the lock covers. *)
Lemma refuses_absent s key :
  growth_stopped_ s = true → Exists s key = false → refuses s key = true.
Proof. unfold refuses. intros -> ->. simpl. apply orb_true_r. Qed.


Lemma Exists_GetWeight_Get s key labels :
  Get s key labels
  = if Exists s key then (true, GetWeight s key <$> labels) else (false, []).
Proof.
  unfold Get, Exists, GetWeight.
  destruct (values_ s !! key) as [lw|] eqn:E.
  - rewrite bool_decide_eq_true_2 by (by eexists). done.
  - rewrite bool_decide_eq_false_2; [done|]. by intros [? ?].
Qed.

Local Ltac close_pair_case :=
  split;
  [ intros ?; first [by left | by right]
  | intros [?|(?&?&?)]; first [done | by eexists | congruence] ].

(** [Add] keeps the pairs there are and, unless the lock refuses it, makes
    its own pair a key. *)
Lemma HasWeight_Add s key l delta key' l' :
  HasWeight (Add s key l delta) key' l'
  ↔ HasWeight s key' l' ∨ (key' = key ∧ l' = l ∧ refuses s key = false).
Proof.
  unfold HasWeight, Add.
  destruct (values_ s !! key) as [lw|] eqn:Ef; simpl.
  - destruct (lw !! l) as [w|] eqn:El; simpl.
    + destruct (decide (key' = key)) as [->|Hk].
      * rewrite lookup_insert_eq, Ef. simpl.
        destruct (decide (l' = l)) as [->|Hl].
        -- rewrite lookup_insert_eq, El. close_pair_case.
        -- rewrite lookup_insert_ne by done. close_pair_case.
      * rewrite lookup_insert_ne by done. close_pair_case.
    + destruct (refuses s key) eqn:Hg; simpl; [close_pair_case|].
      destruct (decide (key' = key)) as [->|Hk].
      * rewrite lookup_insert_eq, Ef. simpl.
        destruct (decide (l' = l)) as [->|Hl].
        -- rewrite lookup_insert_eq, El. close_pair_case.
        -- rewrite lookup_insert_ne by done. close_pair_case.
      * rewrite lookup_insert_ne by done. close_pair_case.
  - destruct (refuses s key) eqn:Hg; simpl; [close_pair_case|].
    destruct (decide (key' = key)) as [->|Hk].
    + rewrite lookup_insert_eq, Ef. simpl.
      destruct (decide (l' = l)) as [->|Hl].
      * rewrite lookup_insert_eq. close_pair_case.
      * rewrite lookup_insert_ne, lookup_empty by done.
        split; [by intros [? ?]|]. intros [[? ?]|(?&?&?)]; done.
    + rewrite lookup_insert_ne by done. close_pair_case.
Qed.


End labeled_store_facts.

(** The two readings of the lock differ on a new label of a feature the
    store has: once growth is stopped, an [Add] to the pair (7, 2) of a
    store that holds (7, 1) creates the entry when the lock covers the
    features only, and is refused when it covers the labels. *)
Lemma lock_readings_differ :
  let s : SparseLabeledParameterVector.t Z :=
    SparseLabeledParameterVector.StopGrowth
      (SparseLabeledParameterVector.Add (lock := lock_features)
         SparseLabeledParameterVector.Initialize 7%N 1 5%Z) in
  SparseLabeledParameterVector.GetWeight
    (SparseLabeledParameterVector.Add (lock := lock_features) s 7%N 2 3%Z)
    7%N 2 = 3%Z
  ∧ SparseLabeledParameterVector.Add (lock := lock_pairs) s 7%N 2 3%Z = s
  ∧ SparseLabeledParameterVector.Add (lock := lock_features) s 8%N 2 3%Z = s
  ∧ SparseLabeledParameterVector.Add (lock := lock_pairs) s 8%N 2 3%Z = s.
Proof. by split_and!. Qed.

(** ** Growth: the four stores move together *)

Section growth_facts.
Context `{DoubleOps W} {lock : LabelLock}.
Import Parameters Driver.
Implicit Types (p : Parameters.t W) (c : call W) (calls : list (call W)).

Lemma flags_MakeGradientStep_feature eta iteration gradient p f :
  flags (MakeGradientStep_feature eta iteration gradient p f) = flags p.
Proof.
  unfold flags, MakeGradientStep_feature. simpl.
  rewrite growth_stopped_Add.
  destruct (use_average_ p); by rewrite ?growth_stopped_Add.
Qed.

Lemma flags_MakeGradientStep p features eta iteration gradient :
  flags (MakeGradientStep p features eta iteration gradient) = flags p.
Proof.
  unfold MakeGradientStep.
  rewrite (foldl_seq_lookup (MakeGradientStep_feature eta iteration gradient)).
  revert p. induction features as [|f fs IH]; intros p; [done|].
  simpl. rewrite IH. apply flags_MakeGradientStep_feature.
Qed.

Lemma growth_stopped_foldl_Add_labeled (s : SLPV.t W) features l delta :
  SLPV.growth_stopped_
    (foldl (λ s j, SLPV.Add s (features !!! j) l delta) s
           (seq 0 (length features)))
  = SLPV.growth_stopped_ s.
Proof.
  rewrite (foldl_seq_lookup (λ s f, SLPV.Add s f l delta)).
  revert s. induction features as [|f fs IH]; intros s; [done|].
  simpl. rewrite IH. apply growth_stopped_Add_labeled.
Qed.






Lemma use_average_MakeGradientStep p features eta iteration gradient :
  use_average_ (MakeGradientStep p features eta iteration gradient)
  = use_average_ p.
Proof.
  unfold MakeGradientStep.
  rewrite (foldl_seq_lookup (MakeGradientStep_feature eta iteration gradient)).
  revert p. induction features as [|f fs IH]; intros p; [done|].
  simpl. by rewrite IH.
Qed.










End growth_facts.



(** ** Vectors of scores *)

Section score_vectors.
Context `{DoubleOps W} {lock : LabelLock}.
Implicit Types (v scores : list W) (k i : nat) (x : W).

Lemma length_add_at v k x : length (add_at v k x) = length v.
Proof. apply length_insert. Qed.

Lemma lookup_add_at v k x i :
  add_at v k x !! i
  = if decide (i = k) then (λ y, wadd y x) <$> v !! i else v !! i.
Proof.
  unfold add_at. case_decide as Hik.
  - subst i. destruct (v !! k) as [y|] eqn:E.
    + rewrite list_lookup_insert_eq; [|by eapply lookup_lt_Some].
      simpl. by rewrite (list_lookup_total_correct _ _ _ E).
    + rewrite list_insert_ge; [|by apply lookup_ge_None]. by rewrite E.
  - by rewrite list_lookup_insert_ne.
Qed.

Lemma lookup_AddLabelScores num scores label_scores i :
  Parameters.AddLabelScores num scores label_scores !! i
  = if decide (i < num)
    then (λ y, wadd y (label_scores !!! i)) <$> scores !! i
    else scores !! i.
Proof.
  unfold Parameters.AddLabelScores.
  induction num as [|num IH].
  - cbn [seq foldl]. by rewrite decide_False by lia.
  - rewrite seq_S, foldl_app. cbn [foldl Nat.add]. rewrite lookup_add_at, IH.
    repeat case_decide; try lia; subst; try done.
Qed.

End score_vectors.

(** ** Counters of the cache *)

Lemma uint64_incr_add (h1 h2 : nat) (x : N) :
  uint64_incr h2 (uint64_incr h1 x) = uint64_incr (h2 + h1) x.
Proof. unfold uint64_incr. by rewrite Nat.iter_add. Qed.

Lemma uint64_incr_no_wrap (h : nat) (x : N) :
  (x + N.of_nat h < 2 ^ 64)%N → uint64_incr h x = (x + N.of_nat h)%N.
Proof.
  unfold uint64_incr. induction h as [|h IH]; intros Hlt; simpl.
  - lia.
  - rewrite IH by lia. unfold uint64_wrap. rewrite N.mod_small by lia. lia.
Qed.

(** ** Scoring through the cache *)

Section cached_scoring.
Context `{DoubleOps W} {lock : LabelLock}.
Import Parameters.
Implicit Types (p : Parameters.t W) (features : list N) (labels : list Z)
  (scores : list W) (c : FLC.t W) (f : N).

Lemma Find_Insert_inv c key value key' v :
  FLC.Find (FLC.Insert c key value) key' = Some v →
  FLC.Find c key' = Some v ∨ (key' = key ∧ v = value).
Proof.
  unfold FLC.Find, FLC.Insert.
  destruct (FLC.cache_ c !! key) eqn:E; [by left|]. simpl.
  destruct (decide (key = key')) as [->|Hne].
  - rewrite lookup_insert_eq. intros [= ->]. by right.
  - rewrite lookup_insert_ne by done. by left.
Qed.

(** The first inner loop: the cache content is only read, the hits are
    added in place, the misses are collected in increasing order. *)
Lemma probe_loop f labels scores c k :
  let miss := λ i, FLC.Find c {| feature := f; label := labels !!! i |} = None in
  ∃ sc c',
    foldl (probe f labels) (scores, [], [], c) (seq 0 k)
    = (sc, (labels !!!.) <$> filter miss (seq 0 k), filter miss (seq 0 k), c')
    ∧ FLC.cache_ c' = FLC.cache_ c
    ∧ (∀ i, sc !! i
            = if decide (i < k)
              then match FLC.Find c {| feature := f; label := labels !!! i |} with
                   | Some v => (λ y, wadd y v) <$> scores !! i
                   | None => scores !! i
                   end
              else scores !! i)
    ∧ ∃ h m : nat,
        (h + m = k)%nat
        ∧ FLC.hits_ c' = uint64_incr h (FLC.hits_ c)
        ∧ FLC.misses_ c' = uint64_incr m (FLC.misses_ c).
Proof.
  intros miss. induction k as [|k IH].
  - exists scores, c. split_and!; [done|done| |by exists 0%nat, 0%nat].
    intros i. by rewrite decide_False by lia.
  - destruct IH as (sc & c' & Heq & Hc & Hsc & h & m & Hhm & Hh & Hm).
    rewrite seq_S, foldl_app, Heq, filter_app, fmap_app. cbn [foldl Nat.add].
    unfold probe at 1. unfold FLC.Find at 1. rewrite Hc.
    destruct (FLC.cache_ c !! {| feature := f; label := labels !!! k |})
      as [v|] eqn:E.
    + exists (add_at sc k v), (FLC.IncrementHits c').
      rewrite filter_cons_False, filter_nil, !app_nil_r
        by (unfold miss, FLC.Find; by rewrite E).
      split_and!; [done|done| |].
      * intros i. rewrite lookup_add_at, Hsc.
        destruct (decide (i = k)) as [->|Hne].
        -- rewrite decide_False, decide_True by lia.
           unfold FLC.Find. by rewrite E.
        -- destruct (decide (i < k)).
           ++ by rewrite decide_True by lia.
           ++ by rewrite decide_False by lia.
      * exists (S h), m. simpl. rewrite Hh, Hm. split_and!; [lia|done|done].
    + exists sc, (FLC.IncrementMisses c').
      rewrite filter_cons_True, filter_nil by done.
      split_and!; [done|done| |].
      * intros i. rewrite Hsc.
        destruct (decide (i = k)) as [->|Hne].
        -- rewrite decide_False, decide_True by lia.
           unfold FLC.Find. by rewrite E.
        -- destruct (decide (i < k)).
           ++ by rewrite decide_True by lia.
           ++ by rewrite decide_False by lia.
      * exists h, (S m). simpl. rewrite Hh, Hm. split_and!; [lia|done|done].
Qed.

(** The second inner loop adds one weight at every collected index and
    caches it; [wt i] is the weight the loop adds at index [i]. *)
Lemma fill_loop f reduced adjust label_scores (wt : nat → W) scores c k :
  NoDup adjust → k ≤ length adjust →
  (∀ j, j < k → label_scores !!! j = wt (adjust !!! j)) →
  ∃ sc c',
    foldl (fill f reduced adjust label_scores) (scores, c) (seq 0 k) = (sc, c')
    ∧ (∀ i, sc !! i
            = if decide (i ∈ take k adjust)
              then (λ y, wadd y (wt i)) <$> scores !! i
              else scores !! i)
    ∧ FLC.hits_ c' = FLC.hits_ c
    ∧ FLC.misses_ c' = FLC.misses_ c
    ∧ (∀ key v, FLC.Find c' key = Some v →
         FLC.Find c key = Some v
         ∨ ∃ j, j < k ∧ key = {| feature := f; label := reduced !!! j |}
                ∧ v = label_scores !!! j).
Proof.
  intros Hnd. induction k as [|k IH]; intros Hk Hwt.
  - exists scores, c. split_and!; [done| |done|done|by left].
    intros i. rewrite take_0. by rewrite decide_False by apply not_elem_of_nil.
  - assert (k ≤ length adjust) as Hk' by lia.
    assert (∀ j, j < k → label_scores !!! j = wt (adjust !!! j)) as Hwt'
      by auto with lia.
    destruct (IH Hk' Hwt') as (sc & c' & Heq & Hsc & Hh & Hm & Hfind).
    rewrite seq_S, foldl_app, Heq. cbn [foldl Nat.add]. unfold fill at 1.
    destruct (lookup_lt_is_Some_2 adjust k) as [a Ha]; [lia|].
    rewrite (list_lookup_total_correct _ _ _ Ha).
    assert (a ∉ take k adjust) as Hfresh.
    { intros (j & Hj & Hlt)%elem_of_take.
      pose proof (NoDup_lookup _ _ _ _ Hnd Hj Ha). lia. }
    eexists _, _. split_and!; [done| | | |].
    + intros i. rewrite lookup_add_at, Hsc, (take_S_r _ _ _ Ha).
      destruct (decide (i = a)) as [->|Hne].
      * rewrite (decide_False (P:=a ∈ take k adjust)) by done.
        rewrite decide_True by (apply elem_of_app; right; by apply list_elem_of_singleton).
        rewrite Hwt by lia. by rewrite (list_lookup_total_correct _ _ _ Ha).
      * destruct (decide (i ∈ take k adjust)) as [Hin|Hnin].
        -- by rewrite decide_True by (apply elem_of_app; by left).
        -- rewrite decide_False; [done|].
           intros [?|?%list_elem_of_singleton]%elem_of_app; done.
    + by rewrite (proj1 (Insert_counters _ _ _)).
    + by rewrite (proj2 (Insert_counters _ _ _)).
    + intros key v [Hc'|[-> ->]]%Find_Insert_inv.
      * destruct (Hfind _ _ Hc') as [?|(j & ? & ? & ?)]; [by left|].
        right. exists j. split_and!; [lia|done|done].
      * right. exists k. split_and!; [lia|done|done].
Qed.

Lemma ComputeLabelScores_feature_weights p labels scores f :
  ComputeLabelScores_feature p labels scores f
  = if ExistsLabeled p f
    then AddLabelScores (length labels) scores
           (SLPV.GetWeight (labeled_weights_ p) f <$> labels)
    else scores.
Proof.
  unfold ComputeLabelScores_feature, GetLabeled, ExistsLabeled.
  rewrite Exists_GetWeight_Get.
  by destruct (SLPV.Exists (labeled_weights_ p) f).
Qed.

(** One round of the cached loop: the counters move by one per label when
    the feature has labeled weights and not at all otherwise; on a coherent
    cache the scores are those of the uncached round and the cache stays
    coherent. *)
Lemma ComputeLabelScoresWithCache_feature_spec p labels scores c f :
  ∃ sc' c',
    ComputeLabelScoresWithCache_feature p labels (scores, c) f = (sc', c')
    ∧ (∃ h m : nat,
         (h + m = if ExistsLabeled p f then length labels else 0)%nat
         ∧ FLC.hits_ c' = uint64_incr h (FLC.hits_ c)
         ∧ FLC.misses_ c' = uint64_incr m (FLC.misses_ c))
    ∧ (cache_coherent p c →
       sc' = ComputeLabelScores_feature p labels scores f
       ∧ cache_coherent p c').
Proof.
  rewrite ComputeLabelScores_feature_weights.
  unfold ComputeLabelScoresWithCache_feature.
  destruct (ExistsLabeled p f) eqn:Hex; simpl.
  2:{ exists scores, c. split_and!; [done|by exists 0%nat, 0%nat|done]. }
  destruct (probe_loop f labels scores c (length labels))
    as (sc1 & c1 & Heq & Hc1 & Hsc1 & h & m & Hhm & Hh & Hm).
  rewrite Heq.
  set (miss := λ i, FLC.Find c {| feature := f; label := labels !!! i |} = None)
    in *.
  set (adjust := filter miss (seq 0 (length labels))) in *.
  set (reduced := (labels !!!.) <$> adjust) in *.
  set (label_scores := SLPV.GetWeight (labeled_weights_ p) f <$> reduced).
  assert (length reduced = length adjust) as Hlen by apply length_fmap.
  (* both exits of the round are the second loop run [length reduced] times *)
  assert ((if (length reduced =? 0)%nat then (sc1, c1)
           else let '(found, label_scores) := GetLabeled p f reduced in
                if negb found then (sc1, c1)
                else foldl (fill f reduced adjust label_scores) (sc1, c1)
                           (seq 0 (length reduced)))
          = foldl (fill f reduced adjust label_scores) (sc1, c1)
                  (seq 0 (length reduced))) as ->.
  { destruct (length reduced) eqn:E; [done|]. simpl Nat.eqb. cbv iota.
    unfold GetLabeled. rewrite Exists_GetWeight_Get.
    unfold ExistsLabeled in Hex. by rewrite Hex. }
  assert (NoDup adjust) as Hnd by apply NoDup_filter, NoDup_seq.
  destruct (fill_loop f reduced adjust label_scores
              (λ i, SLPV.GetWeight (labeled_weights_ p) f (labels !!! i))
              sc1 c1 (length reduced) Hnd)
    as (sc2 & c2 & Heq2 & Hsc2 & Hh2 & Hm2 & Hfind2); [lia| |].
  { intros j Hj. unfold label_scores.
    rewrite (list_lookup_total_fmap _ reduced) by lia. unfold reduced.
    by rewrite (list_lookup_total_fmap _ adjust) by lia. }
  exists sc2, c2. split_and!; [done| |].
  { exists h, m. by rewrite Hh2, Hm2. }
  intros Hcoh. split.
  - apply list_eq. intros i.
    rewrite Hsc2, Hsc1, lookup_AddLabelScores, take_ge by lia.
    destruct (decide (i < length labels)) as [Hi|Hi].
    + rewrite (list_lookup_total_fmap _ labels) by done.
      destruct (FLC.Find c {| feature := f; label := labels !!! i |})
        as [v|] eqn:Hf.
      * rewrite decide_False.
        -- by rewrite (Hcoh _ _ Hf).
        -- intros [Hmiss _]%list_elem_of_filter. unfold miss in Hmiss. congruence.
      * rewrite decide_True; [done|].
        apply list_elem_of_filter. split; [done|]. apply elem_of_seq. lia.
    + rewrite decide_False; [done|].
      intros [_ Hin%elem_of_seq]%list_elem_of_filter. lia.
  - intros key v Hkey. destruct (Hfind2 _ _ Hkey) as [Hold|(j & Hj & -> & ->)].
    + apply Hcoh. unfold FLC.Find in *. by rewrite <- Hc1.
    + simpl. unfold label_scores.
      by rewrite (list_lookup_total_fmap _ reduced) by lia.
Qed.

(** The whole call, as a fold over the features. *)
Lemma ComputeLabelScoresWithCache_fold_spec p labels features scores c :
  ∃ sc' c',
    foldl (ComputeLabelScoresWithCache_feature p labels) (scores, c) features
    = (sc', c')
    ∧ (∃ h m : nat,
         (h + m = cache_queries p features labels)%nat
         ∧ FLC.hits_ c' = uint64_incr h (FLC.hits_ c)
         ∧ FLC.misses_ c' = uint64_incr m (FLC.misses_ c))
    ∧ (cache_coherent p c →
       sc' = foldl (ComputeLabelScores_feature p labels) scores features
       ∧ cache_coherent p c').
Proof.
  revert scores c. induction features as [|f fs IH]; intros scores c.
  - exists scores, c. split_and!; [done|by exists 0%nat, 0%nat|done].
  - destruct (ComputeLabelScoresWithCache_feature_spec p labels scores c f)
      as (sc1 & c1 & Heq1 & (h1 & m1 & Hhm1 & Hh1 & Hm1) & Hcoh1).
    destruct (IH sc1 c1)
      as (sc2 & c2 & Heq2 & (h2 & m2 & Hhm2 & Hh2 & Hm2) & Hcoh2).
    exists sc2, c2. cbn [foldl]. rewrite Heq1. split_and!; [done| |].
    + exists (h2 + h1)%nat, (m2 + m1)%nat.
      rewrite Hh2, Hh1, Hm2, Hm1, !uint64_incr_add. split_and!; [|done|done].
      unfold cache_queries in *. rewrite filter_cons.
      destruct (decide (ExistsLabeled p f = true)) as [He|Hne]; simpl.
      * rewrite He in Hhm1. lia.
      * apply not_true_is_false in Hne. rewrite Hne in Hhm1. lia.
    + intros Hc. destruct (Hcoh1 Hc) as [-> Hc1]. by apply Hcoh2.
Qed.

Lemma ComputeLabelScoresWithCache_run_fold p features labels :
  ComputeLabelScoresWithCache_run p features labels
  = foldl (ComputeLabelScoresWithCache_feature p labels)
          (replicate (length labels) w0, caching_weights_ p) features.
Proof.
  unfold ComputeLabelScoresWithCache_run.
  apply (foldl_seq_lookup (ComputeLabelScoresWithCache_feature p labels)).
Qed.

Lemma ComputeLabelScores_fold p features labels :
  ComputeLabelScores p features labels
  = foldl (ComputeLabelScores_feature p labels)
          (replicate (length labels) w0) features.
Proof.
  unfold ComputeLabelScores.
  apply (foldl_seq_lookup (ComputeLabelScores_feature p labels)).
Qed.

(** C2. On a cache every entry of which is the current weight of its pair
    (an empty cache for one), [ComputeLabelScoresWithCache] writes exactly
    the scores [ComputeLabelScores] writes on the same stores; it changes
    nothing but the cache and its counters, and leaves the cache coherent
    with the stores. *)
Theorem ComputeLabelScoresWithCache_same_scores p features labels :
  cache_coherent p (caching_weights_ p) →
  let r := ComputeLabelScoresWithCache p features labels in
  r.1 = ComputeLabelScores p features labels
  ∧ use_average_ r.2 = use_average_ p
  ∧ weights_ r.2 = weights_ p
  ∧ averaged_weights_ r.2 = averaged_weights_ p
  ∧ labeled_weights_ r.2 = labeled_weights_ p
  ∧ averaged_labeled_weights_ r.2 = averaged_labeled_weights_ p
  ∧ cache_coherent r.2 (caching_weights_ r.2).
Proof.
  intros Hcoh. unfold ComputeLabelScoresWithCache.
  rewrite ComputeLabelScoresWithCache_run_fold, ComputeLabelScores_fold.
  destruct (ComputeLabelScoresWithCache_fold_spec p labels features
              (replicate (length labels) w0) (caching_weights_ p))
    as (sc' & c' & -> & _ & Hspec).
  destruct (Hspec Hcoh) as [-> Hc']. simpl. split_and!; done.
Qed.

(** C3 (amended). One call moves the two counters together by the number
    of (feature, label) lookups it makes in the cache, one increment of
    exactly one counter per lookup: [length labels] for every listed
    feature that has labeled weights, none for the others.  The counters
    are [uint64_t]; short of a wrap-around their sum grows by exactly that
    number. *)
Theorem cache_counters_count_queries p features labels :
  let c := caching_weights_ p in
  let c' := caching_weights_ (ComputeLabelScoresWithCache p features labels).2 in
  let q := cache_queries p features labels in
  (∃ h m : nat,
     (h + m = q)%nat
     ∧ FLC.hits_ c' = uint64_incr h (FLC.hits_ c)
     ∧ FLC.misses_ c' = uint64_incr m (FLC.misses_ c))
  ∧ ((FLC.hits_ c + FLC.misses_ c + N.of_nat q < 2 ^ 64)%N →
     (FLC.hits_ c' + FLC.misses_ c' = FLC.hits_ c + FLC.misses_ c + N.of_nat q)%N).
Proof.
  intros c c' q. subst c'. unfold ComputeLabelScoresWithCache.
  rewrite ComputeLabelScoresWithCache_run_fold.
  destruct (ComputeLabelScoresWithCache_fold_spec p labels features
              (replicate (length labels) w0) (caching_weights_ p))
    as (sc' & c' & -> & (h & m & Hhm & Hh & Hm) & _).
  simpl. fold c q in Hhm, Hh, Hm |- *. split.
  - by exists h, m.
  - intros Hlt. rewrite Hh, Hm, !uint64_incr_no_wrap by lia. lia.
Qed.

End cached_scoring.

Lemma ComputeLabelScoresWithCache_same_scores_witness :
  let p : Parameters.t Z :=
    Parameters.MakeLabelGradientStep (lock := lock_features)
      (Parameters.MakeLabelGradientStep (lock := lock_features) Parameters.new [1; 2]%N (-1)%Z 0 5 3%Z)
      [1]%N (-1)%Z 0 6 10%Z in
  (Parameters.ComputeLabelScoresWithCache p [1; 2; 3; 1]%N [5; 6; 7; 5]%Z).1
  = Parameters.ComputeLabelScores p [1; 2; 3; 1]%N [5; 6; 7; 5]%Z.
Proof.
  intros p.
  apply (ComputeLabelScoresWithCache_same_scores p [1; 2; 3; 1]%N [5; 6; 7; 5]%Z).
  intros key v Hfind. vm_compute in Hfind. discriminate Hfind.
Defined.

Lemma cache_counters_count_queries_witness :
  let p : Parameters.t Z :=
    Parameters.MakeLabelGradientStep (lock := lock_features) Parameters.new [1; 2]%N (-1)%Z 0 5 3%Z in
  let c' := Parameters.caching_weights_
              (Parameters.ComputeLabelScoresWithCache p [1; 2; 3; 1]%N
                 [5; 6; 7; 5]%Z).2 in
  (FeatureLabelCache.hits_ c' + FeatureLabelCache.misses_ c' = 12)%N.
Proof.
  intros p c'.
  apply (proj2 (cache_counters_count_queries p [1; 2; 3; 1]%N [5; 6; 7; 5]%Z)).
  vm_compute. reflexivity.
Defined.

(** C3 as stated fails: a listed feature without labeled weights is skipped
    before any cache lookup, so the counters do not move by
    [|features| * |labels|]. *)
Lemma cache_counters_skip_absent_features :
  let p : Parameters.t Z := Parameters.new in
  let c := Parameters.caching_weights_ p in
  let c' := Parameters.caching_weights_
              (Parameters.ComputeLabelScoresWithCache p [1]%N [0]%Z).2 in
  (FeatureLabelCache.hits_ c' + FeatureLabelCache.misses_ c')%N
  ≠ (FeatureLabelCache.hits_ c + FeatureLabelCache.misses_ c
     + N.of_nat (length [1%N] * length [0%Z]))%N.
Proof. vm_compute. discriminate. Qed.

(** ** The averaging identity, in exact arithmetic *)

Section averaging_facts.
Context {lock : LabelLock}.
Import Parameters Averaging.
Implicit Types (p : Parameters.t Qc) (s : SPV.t Qc) (key f : N)
  (updates : list (update Qc)) (u : N → Qc).

Local Open Scope Qc_scope.

Local Ltac qc_ops :=
  cbn [wadd wmul wneg wdiv wof_int w0 w1 Qc_ops] in *.

Lemma Get_Scale_Qc s (c : Qc) key : SPV.Get (SPV.Scale s c) key = SPV.Get s key * c.
Proof.
  unfold SPV.Get. rewrite lookup_Scale.
  destruct (SPV.values_ s !! key); qc_ops; simpl; ring.
Qed.

(** Adding a whole store into one that may grow adds weight by weight. *)
Lemma Get_AddVector_Qc s other key :
  SPV.growth_stopped_ s = false →
  SPV.Get (SPV.AddVector s other) key = SPV.Get s key + SPV.Get other key.
Proof.
  intros Hg. unfold SPV.AddVector.
  cut (SPV.growth_stopped_
         (map_fold (λ key value acc, SPV.Add acc key value) s (SPV.values_ other))
       = false
       ∧ ∀ key, SPV.Get (map_fold (λ key value acc, SPV.Add acc key value) s
                           (SPV.values_ other)) key
                = SPV.Get s key + default 0 (SPV.values_ other !! key)).
  { intros [_ Hget]. apply Hget. }
  apply (map_fold_weak_ind
           (λ r m, SPV.growth_stopped_ r = false
                   ∧ ∀ key, SPV.Get r key = SPV.Get s key + default 0 (m !! key))).
  - split; [done|]. intros k. rewrite lookup_empty. simpl. ring.
  - intros i x m r Hi [Hgr Hr]. split.
    + by rewrite growth_stopped_Add.
    + intros k. rewrite Get_Add by done. qc_ops.
      destruct (decide (k = i)) as [->|Hne].
      * rewrite lookup_insert_eq, Hr, Hi. simpl. ring.
      * rewrite lookup_insert_ne by done. apply Hr.
Qed.

Lemma MakeGradientStep_fold p features (eta : Qc) iteration (gradient : Qc) :
  MakeGradientStep p features eta iteration gradient
  = foldl (MakeGradientStep_feature eta iteration gradient) p features.
Proof.
  unfold MakeGradientStep.
  apply (foldl_seq_lookup (MakeGradientStep_feature eta iteration gradient)).
Qed.

(** One feature of one update at iteration [t]: the live weight moves by
    [- eta * gradient], and [t * live + averaged] does not move. *)
Lemma MakeGradientStep_feature_running_sum p f (eta : Qc) t (gradient : Qc) :
  averaging p →
  let p' := MakeGradientStep_feature eta t gradient p f in
  averaging p'
  ∧ (∀ key, Get p' key
            = if decide (key = f) then Get p key - eta * gradient else Get p key)
  ∧ (∀ key, Qc_of_Z t * Get p' key + SPV.Get (averaged_weights_ p') key
            = Qc_of_Z t * Get p key + SPV.Get (averaged_weights_ p) key).
Proof.
  intros (Hu & Hg & Hga) p'. subst p'.
  unfold MakeGradientStep_feature, averaging, Get. simpl. rewrite Hu.
  split_and!; [done|by rewrite growth_stopped_Add|by rewrite growth_stopped_Add| |].
  - intros key. rewrite Get_Add by done. qc_ops.
    case_decide; [subst; ring|done].
  - intros key. rewrite !Get_Add by done. qc_ops.
    case_decide; [subst; ring|done].
Qed.

Lemma MakeGradientStep_running_sum features p (eta : Qc) t (gradient : Qc) u :
  averaging p → (∀ key, Get p key = u key) →
  let p' := MakeGradientStep p features eta t gradient in
  averaging p'
  ∧ (∀ key, Get p' key = naive_update u features eta gradient key)
  ∧ (∀ key, Qc_of_Z t * Get p' key + SPV.Get (averaged_weights_ p') key
            = Qc_of_Z t * Get p key + SPV.Get (averaged_weights_ p) key).
Proof.
  intros Hp Hu p'. subst p'. rewrite MakeGradientStep_fold. unfold naive_update.
  revert p u Hp Hu. induction features as [|f fs IH]; intros p u Hp Hu; [done|].
  destruct (MakeGradientStep_feature_running_sum p f eta t gradient Hp)
    as (Hp1 & Hget1 & Hsum1).
  cbn [foldl].
  destruct (IH (MakeGradientStep_feature eta t gradient p f)
               (λ x, if decide (x = f) then wadd (u x) (wneg (wmul eta gradient))
                     else u x) Hp1)
    as (Hp2 & Hget2 & Hsum2).
  { intros key. rewrite Hget1, Hu. done. }
  split_and!; [done|done|].
  intros key. by rewrite Hsum2, Hsum1.
Qed.

(** The lazy running sum: after the updates of iterations
    [t, t+1, ..., t+T-1], [(t+T) * live + averaged] has grown by the sum of
    the [T] snapshots. *)
Lemma train_running_sum updates p t u :
  averaging p → (∀ key, Get p key = u key) →
  let p' := train p t updates in
  averaging p'
  ∧ (∀ key, Get p' key = naive_final u updates key)
  ∧ (∀ key, Qc_of_Z (t + Z.of_nat (length updates)) * Get p' key
            + SPV.Get (averaged_weights_ p') key
            = Qc_of_Z t * Get p key + SPV.Get (averaged_weights_ p) key
              + snapshot_sum (naive_snapshots u updates) key).
Proof.
  intros Hp Hu p'. subst p'.
  revert p t u Hp Hu.
  induction updates as [|[[features eta] gradient] rest IH]; intros p t u Hp Hu.
  - split_and!; [done|done|]. intros key. simpl. rewrite Z.add_0_r. ring.
  - destruct (MakeGradientStep_running_sum features p eta t gradient u Hp Hu)
      as (Hp1 & Hget1 & Hsum1).
    destruct (IH _ (t + 1)%Z _ Hp1 Hget1) as (Hp2 & Hfinal2 & Hsum2).
    cbn [train naive_snapshots snapshot_sum foldr length].
    split_and!; [done|done|]. intros key.
    replace (t + Z.of_nat (S (length rest)))%Z
      with (t + 1 + Z.of_nat (length rest))%Z by lia.
    rewrite Hsum2. fold (snapshot_sum (naive_snapshots
      (naive_update u features eta gradient) rest) key).
    rewrite Z2Qc_inj_add, Z2Qc_inj_1, <- Hget1. qc_ops.
    transitivity (Qc_of_Z t * Get (MakeGradientStep p features eta t gradient) key
                  + SPV.Get (averaged_weights_
                               (MakeGradientStep p features eta t gradient)) key
                  + Get (MakeGradientStep p features eta t gradient) key
                  + snapshot_sum
                      (naive_snapshots (naive_update u features eta gradient) rest)
                      key); [ring|].
    rewrite Hsum1. ring.
Qed.

Lemma Get_Finalize_Qc p num_iterations key :
  averaging p →
  Get (Finalize p num_iterations) key
  = Get p key
    + SPV.Get (averaged_weights_ p) key * (1 / Qc_of_Z num_iterations).
Proof.
  intros (Hu & Hg & _). unfold Finalize, Get. rewrite Hu. simpl.
  rewrite Get_AddVector_Qc by done. by rewrite Get_Scale_Qc.
Qed.

Lemma Qc_of_length_nonzero updates :
  updates ≠ [] → Qc_of_Z (Z.of_nat (length updates)) ≠ 0.
Proof.
  intros Hne. rewrite <- Z2Qc_inj_0. intros Heq%Z2Qc_inj.
  destruct updates; [done|]. simpl in Heq. lia.
Qed.

(** C1 (amended). In exact arithmetic, let [p] be an object that
    averages, whose unlabeled stores may grow and whose averaged store holds
    no weight yet, as [Initialize(true)] leaves it.  After any number of
    updates the live weights are those of the naive reference started from
    the live weights of [p]; and with the iterations numbered from 0, the
    update of iteration [t] being the [(t+1)]-th, [Finalize(T)] after
    [T ≥ 1] updates leaves as live weight of every feature the average
    [(u_1 + ... + u_T) / T] of the [T] snapshots that the reference takes
    after each update. *)
Theorem lazy_average_is_naive_average p updates f :
  averaging p →
  (∀ key, SPV.Get (averaged_weights_ p) key = 0) →
  updates ≠ [] →
  (∀ first updates' key,
     Get (train p first updates') key = naive_final (Get p) updates' key)
  ∧ lazy_average p 0 updates f = naive_average (Get p) updates f.
Proof.
  intros Hp Havg Hne. split.
  { intros first updates' key.
    by destruct (train_running_sum updates' p first (Get p) Hp)
      as (_ & Hfinal & _). }
  unfold lazy_average, naive_average.
  destruct (train_running_sum updates p 0 (Get p) Hp) as (Hp' & _ & Hsum);
    [done|].
  rewrite Get_Finalize_Qc by done.
  specialize (Hsum f). rewrite Z.add_0_l, Havg, Z2Qc_inj_0 in Hsum.
  assert (snapshot_sum (naive_snapshots (Get p) updates) f
          = Qc_of_Z (Z.of_nat (length updates)) * Get (train p 0 updates) f
            + SPV.Get (averaged_weights_ (train p 0 updates)) f)
    as -> by (rewrite Hsum; ring).
  pose proof (Qc_of_length_nonzero updates Hne) as Hnz.
  qc_ops. field. done.
Qed.

(** Whatever number [first] the iterations start from, [Finalize(T)]
    leaves the snapshot average minus [first / T] times the last snapshot:
    the two agree for [first = 0] only. *)
Lemma lazy_average_offset p first updates f :
  averaging p →
  (∀ key, SPV.Get (averaged_weights_ p) key = 0) →
  updates ≠ [] →
  lazy_average p first updates f
  = naive_average (Get p) updates f
    - Qc_of_Z first / Qc_of_Z (Z.of_nat (length updates))
      * (naive_final (Get p) updates f - Get p f).
Proof.
  intros Hp Havg Hne. unfold lazy_average, naive_average.
  destruct (train_running_sum updates p first (Get p) Hp)
    as (Hp' & Hfinal & Hsum); [done|].
  rewrite Get_Finalize_Qc by done.
  specialize (Hsum f). rewrite Havg, Z2Qc_inj_add in Hsum.
  assert (snapshot_sum (naive_snapshots (Get p) updates) f
          = (Qc_of_Z first + Qc_of_Z (Z.of_nat (length updates)))
            * Get (train p first updates) f
            + SPV.Get (averaged_weights_ (train p first updates)) f
            - Qc_of_Z first * Get p f)
    as -> by (rewrite Hsum; ring).
  rewrite <- Hfinal.
  pose proof (Qc_of_length_nonzero updates Hne) as Hnz.
  qc_ops. field. done.
Qed.

End averaging_facts.

Lemma lazy_average_is_naive_average_witness :
  let p : Parameters.t Qc :=
    {| Parameters.use_average_ := true;
       Parameters.weights_ :=
         SparseParameterVector.Add SparseParameterVector.Initialize 7%N 2%Qc;
       Parameters.averaged_weights_ := SparseParameterVector.Initialize;
       Parameters.labeled_weights_ := SparseLabeledParameterVector.Initialize;
       Parameters.averaged_labeled_weights_ :=
         SparseLabeledParameterVector.Initialize;
       Parameters.caching_weights_ := FeatureLabelCache.new |} in
  let updates : list (Averaging.update Qc) :=
    [([7; 8]%N, 1%Qc, 1%Qc); ([7]%N, Qc_of_Z 2, Qc_of_Z 3)] in
  Averaging.lazy_average (lock := lock_features) p 0 updates 7%N
  = Averaging.naive_average (Parameters.Get p) updates 7%N.
Proof.
  intros p updates.
  apply (proj2 (lazy_average_is_naive_average (lock := lock_features)
                  p updates 7%N
                  (conj eq_refl (conj eq_refl eq_refl))
                  (λ key, eq_refl)
                  ltac:(discriminate))).
Defined.

(** C1 as stated fails in four ways, each on updates of feature 7.
    - Iterations numbered [1 .. T]: one update with [eta = gradient = 1] at
      iteration 1, then [Finalize(1)], leaves the live weight [0], while the
      only snapshot has [-1] there.
    - binary64 arithmetic, iterations 0 and 1: with [eta = 1] and the
      gradients [1] and [0x1.8p-53] the snapshots are [-1] and
      [-0x1.0000000000001p+0], whose sum rounds to [-2] and whose average
      is [-1], while [Finalize(2)] leaves [-0x1.0000000000001p+0].
    - An averaged store that already holds a weight: after an update made
      at iteration 3, one more update at iteration 0 and [Finalize(1)] leave
      [1], while the snapshot has [-2].
    - Stores that may not grow: after [StopGrowth] on a fresh object the
      update of iteration 0 is refused and [Finalize(1)] leaves [0], while
      the snapshot of the reference has [-1].  And on a locked object whose
      live store has feature 7 and whose averaged store does not, the live
      weight after the updates of iterations 0 and 1 is [-1], then [-2],
      and [Finalize(2)] leaves [-2] and not their average: the averaged
      store took no update. *)
Lemma lazy_average_differs :
  let fresh (W : Type) `{DoubleOps W} : Parameters.t W :=
    Parameters.Initialize Parameters.new true in
  (Averaging.lazy_average (lock := lock_features) (fresh Qc) 1
     [([7%N], 1%Qc, 1%Qc)] 7%N
   ≠ Averaging.naive_average (Parameters.Get (fresh Qc))
       [([7%N], 1%Qc, 1%Qc)] 7%N)
  ∧ (let updates : list (Averaging.update float) :=
       [([7%N], 1%float, 1%float); ([7%N], 1%float, 0x1.8p-53%float)] in
     Averaging.lazy_average (lock := lock_features) (fresh float) 0 updates 7%N
     = (-0x1.0000000000001p+0)%float
     ∧ Averaging.naive_average (Parameters.Get (fresh float)) updates 7%N
       = (-1)%float
     ∧ Averaging.lazy_average (lock := lock_features) (fresh float) 0 updates 7%N
       ≠ Averaging.naive_average (Parameters.Get (fresh float)) updates 7%N)
  ∧ (let p := Parameters.MakeGradientStep (fresh Qc) [7%N] 1%Qc 3 1%Qc in
     Averaging.lazy_average (lock := lock_features) p 0
       [([7%N], 1%Qc, 1%Qc)] 7%N
     ≠ Averaging.naive_average (Parameters.Get p) [([7%N], 1%Qc, 1%Qc)] 7%N)
  ∧ (let p := Parameters.StopGrowth (fresh Qc) in
     Averaging.lazy_average (lock := lock_features) p 0
       [([7%N], 1%Qc, 1%Qc)] 7%N = 0%Qc
     ∧ Averaging.lazy_average (lock := lock_features) p 0
         [([7%N], 1%Qc, 1%Qc)] 7%N
       ≠ Averaging.naive_average (Parameters.Get p) [([7%N], 1%Qc, 1%Qc)] 7%N)
  ∧ (let p : Parameters.t Qc :=
       {| Parameters.use_average_ := true;
          Parameters.weights_ :=
            SparseParameterVector.StopGrowth
              (SparseParameterVector.Add SparseParameterVector.Initialize
                 7%N 0%Qc);
          Parameters.averaged_weights_ :=
            SparseParameterVector.StopGrowth SparseParameterVector.Initialize;
          Parameters.labeled_weights_ :=
            SparseLabeledParameterVector.StopGrowth
              SparseLabeledParameterVector.Initialize;
          Parameters.averaged_labeled_weights_ :=
            SparseLabeledParameterVector.StopGrowth
              SparseLabeledParameterVector.Initialize;
          Parameters.caching_weights_ := FeatureLabelCache.new |} in
     let updates : list (Averaging.update Qc) :=
       [([7%N], 1%Qc, 1%Qc); ([7%N], 1%Qc, 1%Qc)] in
     Parameters.Get (Averaging.train p 0 (take 1 updates)) 7%N = Qc_of_Z (-1)
     ∧ Parameters.Get (Averaging.train p 0 updates) 7%N = Qc_of_Z (-2)
     ∧ Averaging.lazy_average (lock := lock_features) p 0 updates 7%N
       = Qc_of_Z (-2)
     ∧ Averaging.lazy_average (lock := lock_features) p 0 updates 7%N
       ≠ Averaging.naive_average (Parameters.Get p) updates 7%N).
Proof.
  intros fresh.
  assert (∀ x y : Qc, this x ≠ this y → x ≠ y) as Hne by (by intros x y Hxy ->).
  assert (∀ x y : Qc, this x = this y → x = y) as Heq
      by (intros x y Hxy; by apply Qc_is_canon; rewrite Hxy).
  cbv zeta. split_and!.
  - apply Hne. vm_compute. discriminate.
  - vm_compute. reflexivity.
  - vm_compute. reflexivity.
  - intros E. apply (f_equal (PrimFloat.eqb (-1)%float)) in E.
    vm_compute in E. discriminate E.
  - apply Hne. vm_compute. discriminate.
  - apply Heq. vm_compute. reflexivity.
  - apply Hne. vm_compute. discriminate.
  - apply Heq. vm_compute. reflexivity.
  - apply Heq. vm_compute. reflexivity.
  - apply Heq. vm_compute. reflexivity.
  - apply Hne. vm_compute. discriminate.
Qed.

(** ** Cost-augmented decoding, on the decoder written from the
    specification *)

Section decoder_facts.
Import Decoder.
Implicit Types (y gold : output) (legal : list output) (scores : list Qc).

Local Open Scope Qc_scope.




End decoder_facts.



(** ** Scores in exact arithmetic: the feature list as a multiset *)

Section exact_scoring.
Import Parameters.
Implicit Types (p : Parameters.t Qc) (features : list N).

Local Open Scope Qc_scope.

Lemma foldl_score_permutation p features features' (acc : Qc) :
  features ≡ₚ features' →
  foldl (λ score f, score + Get p f) acc features
  = foldl (λ score f, score + Get p f) acc features'.
Proof.
  intros Hperm. revert acc.
  induction Hperm as [|f fs fs' _ IH|f f' fs|fs fs' fs'' _ IH1 _ IH2];
    intros acc; simpl.
  - done.
  - apply IH.
  - f_equal. ring.
  - by rewrite IH1.
Qed.

(** The order of the features does not matter: only how often each one is
    listed. *)
Lemma ComputeScore_permutation p features features' :
  features ≡ₚ features' → ComputeScore p features = ComputeScore p features'.
Proof.
  intros Hperm. rewrite !ComputeScore_foldl.
  by apply (foldl_score_permutation p).
Qed.

(** Absent features contribute nothing. *)
Lemma ComputeScore_skip_absent p features :
  ComputeScore p (filter (λ f, Exists p f = true) features)
  = ComputeScore p features.
Proof.
  rewrite !ComputeScore_foldl.
  change (@w0 Qc Qc_ops) with 0. generalize 0.
  induction features as [|f fs IH]; intros acc; [done|].
  rewrite filter_cons. destruct (decide (Exists p f = true)) as [He|Hne]; simpl.
  - apply IH.
  - apply not_true_is_false in Hne.
    assert (Get p f = 0) as -> by exact (Get_absent (weights_ p) f Hne).
    rewrite IH. f_equal. cbn [wadd Qc_ops]. ring.
Qed.

End exact_scoring.

Lemma ComputeScore_sum_of_Get_witness :
  let p : Parameters.t Z :=
    Parameters.MakeGradientStep Parameters.new [1; 2; 1]%N (-1)%Z 0 3%Z in
  Parameters.ComputeScore p [1; 2; 3; 1]%N
  = wsum (Parameters.Get p <$> [1; 2; 3; 1]%N)
  ∧ Parameters.Get p 3%N = 0%Z.
Proof.
  intros p. split.
  - apply (proj1 (ComputeScore_sum_of_Get p [1; 2; 3; 1]%N)).
  - exact (proj2 (ComputeScore_sum_of_Get p [1; 2; 3; 1]%N) 3%N eq_refl).
Defined.

(** * Further properties of the code *)

(** ** The hash of the cache keys *)

Section mapper_facts.
Import FeatureLabelPairMapper.

Local Open Scope Z_scope.

Lemma size_t_wrap_range x : 0 ≤ size_t_wrap x < 2 ^ 64.
Proof. unfold size_t_wrap. apply Z.mod_pos_bound. lia. Qed.

Lemma size_t_wrap_add_inj a b k :
  0 ≤ a < 2 ^ 64 → 0 ≤ b < 2 ^ 64 →
  size_t_wrap (a + k) = size_t_wrap (b + k) → a = b.
Proof.
  unfold size_t_wrap. intros Ha Hb Heq.
  assert ((a + k - k) mod 2 ^ 64 = (b + k - k) mod 2 ^ 64) as Hsub.
  { by rewrite <- (Zminus_mod_idemp_l (a + k)), Heq, Zminus_mod_idemp_l. }
  replace (a + k - k) with a in Hsub by lia.
  replace (b + k - k) with b in Hsub by lia.
  by rewrite !Z.mod_small in Hsub by lia.
Qed.

Lemma lxor_cancel_l s a b : Z.lxor s a = Z.lxor s b → a = b.
Proof.
  intros Heq. apply (f_equal (Z.lxor s)) in Heq.
  by rewrite <- !Z.lxor_assoc, Z.lxor_nilpotent, !Z.lxor_0_l in Heq.
Qed.

(** For a given seed [HashCombine] maps different values (of type
    [size_t]) to different results. *)
Lemma HashCombine_inj seed value value' :
  0 ≤ value < 2 ^ 64 → 0 ≤ value' < 2 ^ 64 →
  HashCombine value seed = HashCombine value' seed → value = value'.
Proof.
  intros Hv Hv' Heq. unfold HashCombine in Heq.
  apply lxor_cancel_l in Heq.
  apply size_t_wrap_add_inj in Heq; [|apply size_t_wrap_range..].
  apply size_t_wrap_add_inj in Heq; [|apply size_t_wrap_range..].
  by apply size_t_wrap_add_inj in Heq.
Qed.

Lemma equal_iff p q : equal p q = true ↔ p = q.
Proof.
  unfold equal. rewrite andb_true_iff, N.eqb_eq, Z.eqb_eq.
  destruct p, q; simpl. split; [by intros [-> ->]|by intros [= -> ->]].
Qed.

(** X1. The hash of the cache keys loses nothing of the label: two keys
    with the same feature whose labels [std::hash<int>] tells apart get
    different hashes, whatever [std::hash<uint64_t>] is; and two keys that
    the comparison function equates get the same hash. *)
Theorem hash_separates_labels hash_uint64 hash_int p q :
  (∀ l, 0 ≤ hash_int l < 2 ^ 64) →
  (feature p = feature q → hash_int (label p) ≠ hash_int (label q) →
   hash hash_uint64 hash_int p ≠ hash hash_uint64 hash_int q)
  ∧ (equal p q = true →
     hash hash_uint64 hash_int p = hash hash_uint64 hash_int q).
Proof.
  intros Hrange. split.
  - intros Hf Hl Heq. apply Hl. unfold hash in Heq. rewrite Hf in Heq.
    by apply (HashCombine_inj (hash_uint64 (feature q))).
  - intros Heq%equal_iff. by subst q.
Qed.

End mapper_facts.

Lemma hash_separates_labels_witness :
  let hash_uint64 := λ f : N, (Z.of_N f mod 2 ^ 64)%Z in
  let hash_int := λ l : Z, (l mod 2 ^ 64)%Z in
  FeatureLabelPairMapper.hash hash_uint64 hash_int {| feature := 7; label := 2 |}
  ≠ FeatureLabelPairMapper.hash hash_uint64 hash_int {| feature := 7; label := 3 |}.
Proof.
  intros hash_uint64 hash_int.
  apply (proj1 (hash_separates_labels hash_uint64 hash_int
                  {| feature := 7; label := 2 |} {| feature := 7; label := 3 |}
                  (λ l, Z.mod_pos_bound l (2 ^ 64) eq_refl))).
  - reflexivity.
  - discriminate.
Defined.

(** ** The cache: insertion, accessors *)

Section cache_more_facts.
Context {W : Type}.
Implicit Types (c : FeatureLabelCache.t W) (key : FeatureLabelPair).
Import FeatureLabelCache.

(** X2. [Insert] touches the entry of its key only: the other entries and
    the two counters stay, and the size grows by one exactly when the key
    was not cached. *)
Theorem Insert_frame c key value :
  (∀ key', key' ≠ key → Find (Insert c key value) key' = Find c key')
  ∧ hits_ (Insert c key value) = hits_ c
  ∧ misses_ (Insert c key value) = misses_ c
  ∧ GetSize (Insert c key value)
    = match Find c key with
      | Some _ => GetSize c
      | None => S (GetSize c)
      end.
Proof.
  split_and!.
  - intros key' Hne. by apply Find_Insert_ne.
  - apply Insert_counters.
  - apply Insert_counters.
  - unfold GetSize, Find, Insert.
    destruct (cache_ c !! key) eqn:E; [done|]. simpl.
    by apply map_size_insert_None.
Qed.

Lemma int_of_uint64_small (n : N) :
  (n < 2 ^ 31)%N → int_of_uint64 n = Z.of_N n.
Proof.
  intros Hn. unfold int_of_uint64.
  assert (0 ≤ Z.of_N n < 2 ^ 31)%Z as Hz by lia.
  rewrite Z.mod_small by lia.
  destruct (Z.ltb_spec (Z.of_N n) (2 ^ 31)); [done|lia].
Qed.

End cache_more_facts.

Lemma Insert_frame_witness :
  let k := {| feature := 7; label := 2 |} in
  let k' := {| feature := 7; label := 3 |} in
  let c : FeatureLabelCache.t Z :=
    FeatureLabelCache.Insert FeatureLabelCache.new k' 4%Z in
  FeatureLabelCache.Find (FeatureLabelCache.Insert c k 5%Z) k' = Some 4%Z.
Proof.
  intros k k' c.
  rewrite (proj1 (Insert_frame c k 5%Z) k'); [reflexivity|discriminate].
Defined.

(** ** GenderNumberStatistics: a run of [AddPhrase] calls *)

Section gender_number_more_facts.
Import GenderNumberStatistics.
Implicit Types (s : GenderNumberStatistics.t)
  (entries : list (list Z * list Z)).

(** X3. A run of [AddPhrase] calls keeps every entry that was there and
    gives a new phrase the counts of its first occurrence in the run; the
    calls that return true are as many as the phrases the run adds. *)
Theorem AddPhrases_first_occurrence_wins s entries :
  phrase_counts_ (AddPhrases s entries).2
  = phrase_counts_ s ∪ list_to_map entries
  ∧ (size (phrase_counts_ (AddPhrases s entries).2)
     = size (phrase_counts_ s)
       + length (filter (λ b, b = true) (AddPhrases s entries).1))%nat.
Proof.
  revert s. induction entries as [|[phrase counts] rest IH]; intros s.
  - simpl. split; [by rewrite (right_id_L ∅ (∪))|lia].
  - cbn [AddPhrases]. unfold AddPhrase.
    destruct (phrase_counts_ s !! phrase) as [old|] eqn:E.
    + destruct (IH s) as [IH1 IH2].
      destruct (AddPhrases s rest) as [flags s2]. cbn [fst snd] in *.
      split; [|by rewrite filter_cons_False by done].
      rewrite IH1. apply map_eq. intros k.
      destruct (decide (k = phrase)) as [->|Hne].
      * by rewrite !(lookup_union_Some_l _ _ _ _ E).
      * rewrite list_to_map_cons, !lookup_union.
        by rewrite lookup_insert_ne.
    + destruct (IH {| phrase_counts_ := <[phrase:=counts]> (phrase_counts_ s) |})
        as [IH1 IH2].
      destruct (AddPhrases _ rest) as [flags s2].
      cbn [fst snd phrase_counts_] in *.
      split.
      * rewrite IH1. apply map_eq. intros k.
        rewrite list_to_map_cons, !lookup_union.
        destruct (decide (k = phrase)) as [->|Hne].
        -- rewrite !lookup_insert_eq, E.
           by destruct (list_to_map (M:=gmap (list Z) (list Z)) rest !! phrase).
        -- by rewrite !lookup_insert_ne.
      * rewrite filter_cons_True by done. cbn [length].
        rewrite IH2, map_size_insert_None by done. lia.
Qed.

End gender_number_more_facts.

(** ** CoreferenceDictionary: pronouns *)

Section pronoun_facts.
Context `{PronounOps P}.
Import CoreferenceDictionary.
Implicit Types (d : CoreferenceDictionary.t P) (form_lower : Z).

Lemma queries_false_without_pronoun d form_lower :
  GetPronoun d form_lower = None →
  IsMalePronoun d form_lower = false
  ∧ IsFemalePronoun d form_lower = false
  ∧ IsNeutralPronoun d form_lower = false
  ∧ IsSingularPronoun d form_lower = false
  ∧ IsPluralPronoun d form_lower = false.
Proof.
  unfold IsMalePronoun, IsFemalePronoun, IsNeutralPronoun, IsSingularPronoun,
    IsPluralPronoun. by intros ->.
Qed.

(** X4. The gender and number queries answer true for pronouns of the
    table only: when one of them holds for a word, [IsPronoun] holds for it
    and [GetPronoun] returns a pronoun; for a word that is not in the table
    all five are false. *)
Theorem pronoun_queries_only_for_pronouns d form_lower :
  (IsMalePronoun d form_lower = true ∨ IsFemalePronoun d form_lower = true
   ∨ IsNeutralPronoun d form_lower = true
   ∨ IsSingularPronoun d form_lower = true
   ∨ IsPluralPronoun d form_lower = true →
   IsPronoun d form_lower = true ∧ is_Some (GetPronoun d form_lower))
  ∧ (IsPronoun d form_lower = false →
     GetPronoun d form_lower = None
     ∧ IsMalePronoun d form_lower = false
     ∧ IsFemalePronoun d form_lower = false
     ∧ IsNeutralPronoun d form_lower = false
     ∧ IsSingularPronoun d form_lower = false
     ∧ IsPluralPronoun d form_lower = false).
Proof.
  split.
  - intros Hquery.
    destruct (GetPronoun d form_lower) as [pronoun|] eqn:Hget.
    + split; [|by eexists]. unfold IsPronoun, GetPronoun in *.
      by destruct (all_pronouns_ d !! form_lower).
    + destruct (queries_false_without_pronoun d form_lower Hget)
        as (? & ? & ? & ? & ?).
      destruct Hquery as [?|[?|[?|[?|?]]]]; congruence.
  - intros Hnot.
    assert (GetPronoun d form_lower = None) as Hget.
    { unfold IsPronoun, GetPronoun in *.
      by destruct (all_pronouns_ d !! form_lower). }
    split; [done|]. by apply queries_false_without_pronoun.
Qed.

(** X5. After [DeleteAllPronouns] no word is a pronoun and no gender or
    number query holds, while the five tag sets answer as before. *)
Theorem DeleteAllPronouns_clears d form_lower tag :
  let d' := DeleteAllPronouns d in
  IsPronoun d' form_lower = false
  ∧ GetPronoun d' form_lower = None
  ∧ IsMalePronoun d' form_lower = false
  ∧ IsFemalePronoun d' form_lower = false
  ∧ IsNeutralPronoun d' form_lower = false
  ∧ IsSingularPronoun d' form_lower = false
  ∧ IsPluralPronoun d' form_lower = false
  ∧ IsNamedEntity d' tag = IsNamedEntity d tag
  ∧ IsPersonEntity d' tag = IsPersonEntity d tag
  ∧ IsNounPhrase d' tag = IsNounPhrase d tag
  ∧ IsProperNoun d' tag = IsProperNoun d tag
  ∧ IsPronounTag d' tag = IsPronounTag d tag.
Proof.
  intros d'.
  assert (GetPronoun d' form_lower = None) as Hget.
  { unfold GetPronoun, d', DeleteAllPronouns. simpl. by rewrite lookup_empty. }
  assert (IsPronoun d' form_lower = false) as Hnot.
  { unfold IsPronoun, d', DeleteAllPronouns. simpl. by rewrite lookup_empty. }
  destruct (queries_false_without_pronoun d' form_lower Hget)
    as (? & ? & ? & ? & ?).
  split_and!; done.
Qed.

End pronoun_facts.

(** ** Label scores in closed form *)

Section label_scores_facts.
Context `{DoubleOps W} {lock : LabelLock}.
Import Parameters.
Implicit Types (p : Parameters.t W) (features : list N) (labels : list Z)
  (scores : list W) (c : FLC.t W) (f : N).

Lemma lookup_ComputeLabelScores_feature p labels scores f k :
  ComputeLabelScores_feature p labels scores f !! k
  = if decide (k < length labels ∧ ExistsLabeled p f = true)
    then (λ y, wadd y (SLPV.GetWeight (labeled_weights_ p) f (labels !!! k)))
           <$> scores !! k
    else scores !! k.
Proof.
  rewrite ComputeLabelScores_feature_weights.
  destruct (ExistsLabeled p f).
  - rewrite lookup_AddLabelScores.
    destruct (decide (k < length labels)) as [Hk|Hk].
    + rewrite decide_True by done.
      by rewrite (list_lookup_total_fmap _ labels) by done.
    + rewrite decide_False; [done|]. by intros [? _].
  - rewrite decide_False; [done|]. by intros [_ ?].
Qed.

Lemma lookup_foldl_ComputeLabelScores_feature p labels features scores k :
  k < length labels →
  foldl (ComputeLabelScores_feature p labels) scores features !! k
  = (λ y, foldl (λ acc f, wadd acc (SLPV.GetWeight (labeled_weights_ p) f
                                      (labels !!! k)))
                y (filter (λ f, ExistsLabeled p f = true) features))
      <$> scores !! k.
Proof.
  intros Hk. revert scores.
  induction features as [|f fs IH]; intros scores.
  - simpl. by destruct (scores !! k).
  - cbn [foldl]. rewrite IH, lookup_ComputeLabelScores_feature, filter_cons.
    destruct (decide (ExistsLabeled p f = true)) as [He|Hne].
    + rewrite decide_True by done. by destruct (scores !! k).
    + rewrite decide_False; [done|]. by intros [_ ?].
Qed.

Lemma length_ComputeLabelScores_feature p labels scores f :
  length (ComputeLabelScores_feature p labels scores f) = length scores.
Proof.
  rewrite ComputeLabelScores_feature_weights.
  destruct (ExistsLabeled p f); [|done].
  unfold AddLabelScores. generalize (seq 0 (length labels)). intros ks.
  revert scores. induction ks as [|k ks IH]; intros scores; [done|].
  simpl. by rewrite IH, length_add_at.
Qed.

(** X6. [ComputeLabelScores] returns one score per requested label, in the
    order of [labels]: the sum, from [0.0] and in the order of the list, of
    the weights of the label over the listed features that have labeled
    weights; the other features are skipped and add nothing, not even a
    [0.0]. *)
Theorem ComputeLabelScores_closed_form p features labels :
  ComputeLabelScores p features labels
  = (λ l, wsum ((λ f, SLPV.GetWeight (labeled_weights_ p) f l)
                  <$> filter (λ f, ExistsLabeled p f = true) features))
      <$> labels.
Proof.
  rewrite ComputeLabelScores_fold.
  assert (length (foldl (ComputeLabelScores_feature p labels)
                        (replicate (length labels) w0) features)
          = length labels) as Hlen.
  { generalize (replicate (length labels) w0) (length_replicate (length labels)
                                                 (w0 : W)).
    induction features as [|f fs IH]; intros scores Hs; [done|].
    cbn [foldl]. apply IH. by rewrite length_ComputeLabelScores_feature. }
  apply list_eq. intros k. rewrite list_lookup_fmap.
  destruct (decide (k < length labels)) as [Hk|Hk].
  - rewrite lookup_foldl_ComputeLabelScores_feature by done.
    rewrite (lookup_replicate_2 (length labels) (w0 : W) k Hk).
    rewrite (list_lookup_lookup_total_lt labels k Hk). simpl.
    unfold wsum. by rewrite foldl_fmap.
  - rewrite (lookup_ge_None_2 labels k) by lia.
    apply lookup_ge_None_2. lia.
Qed.

End label_scores_facts.

(** ** The cache across calls *)

Section cache_across_calls.
Context `{DoubleOps W} {lock : LabelLock}.
Import Parameters.
Implicit Types (p : Parameters.t W) (features : list N) (labels : list Z)
  (scores : list W) (c : FLC.t W) (f : N).

Lemma uint64_incr_S (n : nat) (x : N) :
  uint64_incr (S n) x = uint64_wrap (uint64_incr n x + 1).
Proof. done. Qed.

(** The first inner loop counts one miss per collected index and one hit
    per other index. *)
Lemma probe_loop_counters f labels scores c k sc reduced adjust c' :
  foldl (probe f labels) (scores, [], [], c) (seq 0 k)
  = (sc, reduced, adjust, c') →
  length sc = length scores
  ∧ length adjust ≤ k
  ∧ FLC.misses_ c' = uint64_incr (length adjust) (FLC.misses_ c)
  ∧ FLC.hits_ c' = uint64_incr (k - length adjust) (FLC.hits_ c).
Proof.
  revert sc reduced adjust c'. induction k as [|k IH]; intros sc red adj c'.
  - intros [= <- <- <- <-]. done.
  - rewrite seq_S, foldl_app. cbn [foldl Nat.add].
    destruct (foldl (probe f labels) (scores, [], [], c) (seq 0 k))
      as [[[sc0 red0] adj0] c0].
    destruct (IH _ _ _ _ eq_refl) as (Hlen & Hle & Hm & Hh).
    unfold probe.
    destruct (FLC.Find c0 {| feature := f; label := labels !!! k |}).
    + intros [= <- <- <- <-]. simpl. rewrite length_add_at, Hm, Hh.
      replace (S k - length adj0) with (S (k - length adj0)) by lia.
      split_and!; [done|lia|done|done].
    + intros [= <- <- <- <-]. simpl. rewrite length_app, Hm, Hh. simpl.
      replace (length adj0 + 1) with (S (length adj0)) by lia.
      replace (S k - S (length adj0)) with (k - length adj0) by lia.
      split_and!; [done|lia|done|done].
Qed.

Lemma Find_Insert_keeps c key value key' v :
  FLC.Find c key' = Some v → FLC.Find (FLC.Insert c key value) key' = Some v.
Proof.
  unfold FLC.Find, FLC.Insert. intros Hf.
  destruct (FLC.cache_ c !! key) eqn:E; [done|]. simpl.
  rewrite lookup_insert_ne; [done|]. intros ->. congruence.
Qed.

Lemma Find_Insert_is_Some c key value :
  is_Some (FLC.Find (FLC.Insert c key value) key).
Proof.
  unfold FLC.Find, FLC.Insert.
  destruct (FLC.cache_ c !! key) eqn:E; [by rewrite E|].
  simpl. rewrite lookup_insert_eq. by eexists.
Qed.

Lemma GetSize_Insert_le c key value :
  FLC.GetSize (FLC.Insert c key value) ≤ S (FLC.GetSize c).
Proof.
  unfold FLC.GetSize, FLC.Insert.
  destruct (FLC.cache_ c !! key) eqn:E; [lia|]. simpl.
  by rewrite map_size_insert_None.
Qed.

(** The second inner loop keeps what is cached, caches the pair of every
    index it visits and adds at most one entry per visit. *)
Lemma fill_loop_cache f reduced adjust label_scores scores c k sc c' :
  foldl (fill f reduced adjust label_scores) (scores, c) (seq 0 k) = (sc, c') →
  length sc = length scores
  ∧ (∀ key v, FLC.Find c key = Some v → FLC.Find c' key = Some v)
  ∧ (∀ j, j < k →
       is_Some (FLC.Find c' {| feature := f; label := reduced !!! j |}))
  ∧ FLC.GetSize c' ≤ FLC.GetSize c + k
  ∧ FLC.hits_ c' = FLC.hits_ c
  ∧ FLC.misses_ c' = FLC.misses_ c.
Proof.
  revert sc c'. induction k as [|k IH]; intros sc c'.
  - intros [= <- <-]. split_and!; [done|done| |lia|done|done].
    intros j Hj. lia.
  - rewrite seq_S, foldl_app. cbn [foldl Nat.add].
    destruct (foldl (fill f reduced adjust label_scores) (scores, c) (seq 0 k))
      as [sc0 c0].
    destruct (IH _ _ eq_refl) as (Hlen & Hkeep & Hnew & Hsize & Hh & Hm).
    unfold fill. intros [= <- <-]. split_and!.
    + by rewrite length_add_at.
    + intros key v Hf. by apply Find_Insert_keeps, Hkeep.
    + intros j Hj. destruct (decide (j = k)) as [->|Hne].
      * apply Find_Insert_is_Some.
      * destruct (Hnew j) as [v Hv]; [lia|].
        exists v. by apply Find_Insert_keeps.
    + pose proof (GetSize_Insert_le c0
        {| feature := f; label := reduced !!! k |} (label_scores !!! k)). lia.
    + by rewrite (proj1 (Insert_counters _ _ _)).
    + by rewrite (proj2 (Insert_counters _ _ _)).
Qed.

(** One round of the cached loop seen from the cache. *)
Lemma ComputeLabelScoresWithCache_feature_cache p labels scores c f :
  ∃ sc' c' (m : nat),
    ComputeLabelScoresWithCache_feature p labels (scores, c) f = (sc', c')
    ∧ length sc' = length scores
    ∧ (∀ key v, FLC.Find c key = Some v → FLC.Find c' key = Some v)
    ∧ (ExistsLabeled p f = true →
       ∀ l, l ∈ labels → is_Some (FLC.Find c' {| feature := f; label := l |}))
    ∧ m ≤ (if ExistsLabeled p f then length labels else 0)
    ∧ FLC.misses_ c' = uint64_incr m (FLC.misses_ c)
    ∧ FLC.hits_ c'
      = uint64_incr ((if ExistsLabeled p f then length labels else 0) - m)
                    (FLC.hits_ c)
    ∧ FLC.GetSize c' ≤ FLC.GetSize c + m
    ∧ ((ExistsLabeled p f = true →
        ∀ l, l ∈ labels → is_Some (FLC.Find c {| feature := f; label := l |})) →
       m = 0 ∧ FLC.cache_ c' = FLC.cache_ c).
Proof.
  unfold ComputeLabelScoresWithCache_feature.
  destruct (ExistsLabeled p f) eqn:Hex; simpl.
  2:{ exists scores, c, 0. split_and!; try done. lia. }
  destruct (probe_loop f labels scores c (length labels))
    as (sc1 & c1 & Heq & Hc1 & _ & _).
  destruct (probe_loop_counters _ _ _ _ _ _ _ _ _ Heq)
    as (Hlen1 & Hle1 & Hm1 & Hh1).
  rewrite Heq.
  set (miss := λ i, FLC.Find c {| feature := f; label := labels !!! i |} = None)
    in *.
  set (adjust := filter miss (seq 0 (length labels))) in *.
  set (reduced := (labels !!!.) <$> adjust) in *.
  set (label_scores := SLPV.GetWeight (labeled_weights_ p) f <$> reduced).
  assert (length reduced = length adjust) as Hlen by apply length_fmap.
  assert ((if (length reduced =? 0)%nat then (sc1, c1)
           else let '(found, label_scores) := GetLabeled p f reduced in
                if negb found then (sc1, c1)
                else foldl (fill f reduced adjust label_scores) (sc1, c1)
                           (seq 0 (length reduced)))
          = foldl (fill f reduced adjust label_scores) (sc1, c1)
                  (seq 0 (length reduced))) as ->.
  { destruct (length reduced) eqn:E; [done|]. simpl Nat.eqb. cbv iota.
    unfold GetLabeled. rewrite Exists_GetWeight_Get.
    unfold ExistsLabeled in Hex. by rewrite Hex. }
  destruct (foldl (fill f reduced adjust label_scores) (sc1, c1)
                  (seq 0 (length reduced))) as [sc2 c2] eqn:Heq2.
  destruct (fill_loop_cache _ _ _ _ _ _ _ _ _ Heq2)
    as (Hlen2 & Hkeep & Hnew & Hsize & Hh2 & Hm2).
  exists sc2, c2, (length adjust).
  assert (∀ key v, FLC.Find c key = Some v → FLC.Find c1 key = Some v) as Hkeep1.
  { intros key v. unfold FLC.Find. by rewrite Hc1. }
  split_and!.
  - done.
  - congruence.
  - by auto.
  - intros _ l [i Hi]%list_elem_of_lookup_1.
    assert (i < length labels) as Hlt by (by eapply lookup_lt_Some).
    assert (labels !!! i = l) as Hl by (by apply list_lookup_total_correct).
    destruct (FLC.Find c {| feature := f; label := l |}) as [v|] eqn:Hf.
    + exists v. by apply Hkeep, Hkeep1.
    + assert (i ∈ adjust) as [j Hj]%list_elem_of_lookup_1.
      { apply list_elem_of_filter. split; [|apply elem_of_seq; lia].
        unfold miss. by rewrite Hl. }
      assert (j < length reduced) as Hjlt.
      { rewrite Hlen. by eapply lookup_lt_Some. }
      specialize (Hnew j Hjlt). unfold reduced in Hnew.
      rewrite (list_lookup_total_fmap _ adjust) in Hnew by lia.
      by rewrite (list_lookup_total_correct _ _ _ Hj), Hl in Hnew.
  - done.
  - by rewrite Hm2.
  - by rewrite Hh2.
  - assert (FLC.GetSize c1 = FLC.GetSize c) as Hs1.
    { unfold FLC.GetSize. by rewrite Hc1. }
    lia.
  - intros Hall. specialize (Hall eq_refl).
    assert (adjust = []) as Hnil.
    { apply elem_of_nil_inv.
      intros i [Hmiss Hi%elem_of_seq]%list_elem_of_filter.
      unfold miss in Hmiss.
      destruct (Hall (labels !!! i)) as [v Hv]; [|congruence].
      apply list_elem_of_lookup_total_2. lia. }
    split; [by rewrite Hnil|].
    assert (length reduced = 0) as Hz by (by rewrite Hlen, Hnil).
    rewrite Hz in Heq2. simpl in Heq2. by injection Heq2 as <- <-.
Qed.


Lemma cache_queries_cons p f features labels :
  cache_queries p (f :: features) labels
  = (if ExistsLabeled p f then length labels else 0)
    + cache_queries p features labels.
Proof.
  unfold cache_queries. rewrite filter_cons.
  destruct (decide (ExistsLabeled p f = true)) as [He|Hne].
  - rewrite He. simpl. lia.
  - apply not_true_is_false in Hne. by rewrite Hne.
Qed.

(** The whole call seen from the cache. *)
Lemma ComputeLabelScoresWithCache_fold_cache p labels features scores c :
  ∃ sc' c' (m : nat),
    foldl (ComputeLabelScoresWithCache_feature p labels) (scores, c) features
    = (sc', c')
    ∧ length sc' = length scores
    ∧ (∀ key v, FLC.Find c key = Some v → FLC.Find c' key = Some v)
    ∧ (∀ f l, f ∈ features → ExistsLabeled p f = true → l ∈ labels →
         is_Some (FLC.Find c' {| feature := f; label := l |}))
    ∧ m ≤ cache_queries p features labels
    ∧ FLC.misses_ c' = uint64_incr m (FLC.misses_ c)
    ∧ FLC.hits_ c'
      = uint64_incr (cache_queries p features labels - m) (FLC.hits_ c)
    ∧ FLC.GetSize c' ≤ FLC.GetSize c + m
    ∧ ((∀ f l, f ∈ features → ExistsLabeled p f = true → l ∈ labels →
          is_Some (FLC.Find c {| feature := f; label := l |})) →
       m = 0 ∧ FLC.cache_ c' = FLC.cache_ c).
Proof.
  revert scores c. induction features as [|f fs IH]; intros scores c.
  - exists scores, c, 0. split_and!; try done; [|lia].
    intros f l Hf. by apply not_elem_of_nil in Hf.
  - destruct (ComputeLabelScoresWithCache_feature_cache p labels scores c f)
      as (sc1 & c1 & m1 & Heq1 & Hlen1 & Hkeep1 & Hnew1 & Hle1 & Hm1 & Hh1
          & Hsize1 & Hwarm1).
    destruct (IH sc1 c1)
      as (sc2 & c2 & m2 & Heq2 & Hlen2 & Hkeep2 & Hnew2 & Hle2 & Hm2 & Hh2
          & Hsize2 & Hwarm2).
    exists sc2, c2, (m2 + m1). cbn [foldl]. rewrite Heq1, cache_queries_cons.
    split_and!.
    + done.
    + congruence.
    + by auto.
    + intros f' l [->|Hf']%elem_of_cons Hex Hl.
      * destruct (Hnew1 Hex l Hl) as [v Hv]. exists v. by apply Hkeep2.
      * by apply Hnew2.
    + lia.
    + by rewrite Hm2, Hm1, uint64_incr_add.
    + rewrite Hh2, Hh1, uint64_incr_add. f_equal. lia.
    + lia.
    + intros Hall.
      destruct Hwarm1 as [-> Hc1].
      { intros Hex l Hl. apply Hall; [left|done|done]. }
      destruct Hwarm2 as [-> Hc2].
      { intros f' l Hf' Hex Hl. unfold FLC.Find. rewrite Hc1.
        apply Hall; [by right|done|done]. }
      split; [done|congruence].
Qed.

(** X7. A call never removes or changes a cached entry, returns one score
    per label whatever the cache holds, and adds to the cache at most one
    entry per miss. *)
Theorem ComputeLabelScoresWithCache_cache_grows p features labels :
  let c := caching_weights_ p in
  let r := ComputeLabelScoresWithCache p features labels in
  let c' := caching_weights_ r.2 in
  let q := cache_queries p features labels in
  length r.1 = length labels
  ∧ (∀ key v, FLC.Find c key = Some v → FLC.Find c' key = Some v)
  ∧ ∃ m : nat,
      m ≤ q
      ∧ FLC.misses_ c' = uint64_incr m (FLC.misses_ c)
      ∧ FLC.hits_ c' = uint64_incr (q - m) (FLC.hits_ c)
      ∧ FLC.GetSize c' ≤ FLC.GetSize c + m.
Proof.
  intros c r c' q. subst r c'. unfold ComputeLabelScoresWithCache.
  rewrite ComputeLabelScoresWithCache_run_fold.
  destruct (ComputeLabelScoresWithCache_fold_cache p labels features
              (replicate (length labels) w0) (caching_weights_ p))
    as (sc' & c' & m & -> & Hlen & Hkeep & _ & Hle & Hm & Hh & Hsize & _).
  simpl. split_and!; [by rewrite Hlen, length_replicate|done|].
  exists m. done.
Qed.

(** X8. After a call the cache holds an entry for every requested label of
    every listed feature that has labeled weights; on a cache that was
    coherent with the store the entry is the weight of the pair. *)
Theorem ComputeLabelScoresWithCache_caches_all_queries p features labels f l :
  let c' := caching_weights_ (ComputeLabelScoresWithCache p features labels).2 in
  f ∈ features → ExistsLabeled p f = true → l ∈ labels →
  is_Some (FLC.Find c' {| feature := f; label := l |})
  ∧ (cache_coherent p (caching_weights_ p) →
     FLC.Find c' {| feature := f; label := l |}
     = Some (SLPV.GetWeight (labeled_weights_ p) f l)).
Proof.
  intros c' Hf Hex Hl. subst c'. unfold ComputeLabelScoresWithCache.
  rewrite ComputeLabelScoresWithCache_run_fold.
  destruct (ComputeLabelScoresWithCache_fold_cache p labels features
              (replicate (length labels) w0) (caching_weights_ p))
    as (sc' & c' & m & Heq & _ & _ & Hnew & _).
  destruct (ComputeLabelScoresWithCache_fold_spec p labels features
              (replicate (length labels) w0) (caching_weights_ p))
    as (sc'' & c'' & Heq' & _ & Hcoh).
  rewrite Heq. rewrite Heq in Heq'. injection Heq' as <- <-. simpl.
  destruct (Hnew f l Hf Hex Hl) as [v Hv]. split; [by exists v|].
  intros Hc. destruct (Hcoh Hc) as [_ Hc'].
  rewrite Hv. f_equal. apply (Hc' _ _ Hv).
Qed.

(** X9. The call memoises: a second call with the same features and
    labels finds every pair in the cache, so it adds no miss and leaves
    the cache content as the first call left it; only the hit counter
    moves, once per (feature, label) lookup. *)
Theorem ComputeLabelScoresWithCache_repeat_all_hits p features labels :
  let p1 := (ComputeLabelScoresWithCache p features labels).2 in
  let p2 := (ComputeLabelScoresWithCache p1 features labels).2 in
  FLC.cache_ (caching_weights_ p2) = FLC.cache_ (caching_weights_ p1)
  ∧ FLC.misses_ (caching_weights_ p2) = FLC.misses_ (caching_weights_ p1)
  ∧ FLC.hits_ (caching_weights_ p2)
    = uint64_incr (cache_queries p features labels)
                  (FLC.hits_ (caching_weights_ p1)).
Proof.
  intros p1 p2. subst p2 p1.
  destruct (ComputeLabelScoresWithCache_fold_cache p labels features
              (replicate (length labels) w0) (caching_weights_ p))
    as (sc1 & c1 & m1 & Heq1 & _ & _ & Hnew1 & _).
  set (p1 := {| use_average_ := use_average_ p; weights_ := weights_ p;
                averaged_weights_ := averaged_weights_ p;
                labeled_weights_ := labeled_weights_ p;
                averaged_labeled_weights_ := averaged_labeled_weights_ p;
                caching_weights_ := c1 |}).
  assert (ComputeLabelScoresWithCache p features labels = (sc1, p1)) as ->.
  { unfold ComputeLabelScoresWithCache.
    by rewrite ComputeLabelScoresWithCache_run_fold, Heq1. }
  cbn [snd].
  destruct (ComputeLabelScoresWithCache_fold_cache p1 labels features
              (replicate (length labels) w0) (caching_weights_ p1))
    as (sc2 & c2 & m2 & Heq2 & _ & _ & _ & _ & Hm2 & Hh2 & _ & Hwarm).
  unfold ComputeLabelScoresWithCache.
  rewrite ComputeLabelScoresWithCache_run_fold, Heq2.
  destruct Hwarm as [-> Hc2]; [exact Hnew1|].
  cbn [snd caching_weights_]. rewrite Nat.sub_0_r in Hh2.
  split_and!; [done|done|]. exact Hh2.
Qed.

End cache_across_calls.

(** ** The counters as the accessors return them *)

Section accessor_facts.
Context `{DoubleOps W} {lock : LabelLock}.
Import Parameters.
Implicit Types (p : Parameters.t W) (features : list N) (labels : list Z).

(** X10. [GetCachingWeightsHits] and [GetCachingWeightsMisses] return
    [int]s: as long as the two counters and the lookups of a call stay
    below [2^31] together, the accessors after the call are not negative
    and their sum has grown by the number of lookups. *)
Theorem caching_accessors_exact_below_int_max p features labels :
  let p' := (ComputeLabelScoresWithCache p features labels).2 in
  let q := cache_queries p features labels in
  (FLC.hits_ (caching_weights_ p) + FLC.misses_ (caching_weights_ p)
   + N.of_nat q < 2 ^ 31)%N →
  (0 ≤ GetCachingWeightsHits p')%Z
  ∧ (0 ≤ GetCachingWeightsMisses p')%Z
  ∧ (GetCachingWeightsHits p' + GetCachingWeightsMisses p'
     = GetCachingWeightsHits p + GetCachingWeightsMisses p + Z.of_nat q)%Z.
Proof.
  intros p' q Hlt. subst p'. unfold ComputeLabelScoresWithCache.
  rewrite ComputeLabelScoresWithCache_run_fold.
  destruct (ComputeLabelScoresWithCache_fold_cache p labels features
              (replicate (length labels) w0) (caching_weights_ p))
    as (sc' & c' & m & -> & _ & _ & _ & Hle & Hm & Hh & _).
  fold q in Hle, Hh.
  unfold GetCachingWeightsHits, GetCachingWeightsMisses, FLC.hits, FLC.misses.
  cbn [snd caching_weights_].
  rewrite uint64_incr_no_wrap in Hm, Hh by lia.
  rewrite Hm, Hh, !int_of_uint64_small by lia. lia.
Qed.

End accessor_facts.

Lemma caching_accessors_exact_below_int_max_witness :
  let p : Parameters.t Z :=
    Parameters.MakeLabelGradientStep (lock := lock_features) Parameters.new [1; 2]%N (-1)%Z 0 5 3%Z in
  let p' := (Parameters.ComputeLabelScoresWithCache p [1; 2; 3; 1]%N
               [5; 6; 7; 5]%Z).2 in
  (Parameters.GetCachingWeightsHits p' + Parameters.GetCachingWeightsMisses p'
   = 12)%Z.
Proof.
  intros p p'.
  apply (proj2 (proj2 (caching_accessors_exact_below_int_max p [1; 2; 3; 1]%N
                         [5; 6; 7; 5]%Z eq_refl))).
Defined.

(** ** Gradient steps: what they leave alone *)

Section step_frames.
Context `{DoubleOps W} {lock : LabelLock}.
Import Parameters Driver.
Implicit Types (p : Parameters.t W) (features : list N) (labels : list Z)
  (c : call W) (calls : list (call W)).

Lemma MakeGradientStep_labeled_frame p features eta iteration gradient :
  let p' := MakeGradientStep p features eta iteration gradient in
  labeled_weights_ p' = labeled_weights_ p
  ∧ averaged_labeled_weights_ p' = averaged_labeled_weights_ p
  ∧ caching_weights_ p' = caching_weights_ p.
Proof.
  intros p'. subst p'. unfold MakeGradientStep.
  rewrite (foldl_seq_lookup (MakeGradientStep_feature eta iteration gradient)).
  revert p. induction features as [|f fs IH]; intros p; [done|].
  cbn [foldl]. destruct (IH (MakeGradientStep_feature eta iteration gradient p f))
    as (-> & -> & ->). done.
Qed.

Lemma ComputeLabelScores_ext p p' features labels :
  labeled_weights_ p' = labeled_weights_ p →
  ComputeLabelScores p' features labels = ComputeLabelScores p features labels.
Proof.
  intros Heq. unfold ComputeLabelScores, ComputeLabelScores_feature, GetLabeled.
  by rewrite Heq.
Qed.

Lemma ComputeScore_ext p p' features :
  weights_ p' = weights_ p → ComputeScore p' features = ComputeScore p features.
Proof. intros Heq. unfold ComputeScore, Get. by rewrite Heq. Qed.

(** X11. The two kinds of gradient step do not interfere: a step on the
    simple features changes no labeled weight, hence no label score, and a
    step on the labeled features changes no simple weight, hence no score.
    Neither touches the cache: [MakeLabelGradientStep] leaves the cached
    weights of the pairs it updates as they were. *)
Theorem gradient_steps_frame p features eta iteration l gradient :
  (let p' := MakeGradientStep p features eta iteration gradient in
   caching_weights_ p' = caching_weights_ p
   ∧ labeled_weights_ p' = labeled_weights_ p
   ∧ averaged_labeled_weights_ p' = averaged_labeled_weights_ p
   ∧ ∀ features' labels,
       ComputeLabelScores p' features' labels
       = ComputeLabelScores p features' labels)
  ∧ (let p' := MakeLabelGradientStep p features eta iteration l gradient in
     caching_weights_ p' = caching_weights_ p
     ∧ weights_ p' = weights_ p
     ∧ averaged_weights_ p' = averaged_weights_ p
     ∧ ∀ features', ComputeScore p' features' = ComputeScore p features').
Proof.
  split.
  - destruct (MakeGradientStep_labeled_frame p features eta iteration gradient)
      as (Hl & Hal & Hc).
    split_and!; [done..|]. intros features' labels.
    by apply ComputeLabelScores_ext.
  - split_and!; [done..|]. intros features'. by apply ComputeScore_ext.
Qed.

Lemma run_call_without_average p c :
  use_average_ p = false →
  use_average_ (run_call p c) = false
  ∧ SPV.values_ (averaged_weights_ (run_call p c))
    = SPV.values_ (averaged_weights_ p)
  ∧ SLPV.values_ (averaged_labeled_weights_ (run_call p c))
    = SLPV.values_ (averaged_labeled_weights_ p).
Proof.
  intros Hu. destruct c as [| |features eta iteration gradient
                            |features eta iteration l gradient]; simpl.
  - done.
  - done.
  - rewrite use_average_MakeGradientStep.
    split; [done|].
    destruct (MakeGradientStep_labeled_frame p features eta iteration gradient)
      as (_ & -> & _).
    split; [|done]. unfold MakeGradientStep.
    rewrite (foldl_seq_lookup (MakeGradientStep_feature eta iteration gradient)).
    clear -Hu. revert p Hu.
    induction features as [|f fs IH]; intros p Hu; [done|].
    cbn [foldl]. rewrite IH by done. simpl. by rewrite Hu.
  - by rewrite Hu.
Qed.

(** X12. Without averaging no call of the training driver writes a weight
    into the averaged stores: after any sequence of [StopGrowth],
    [AllowGrowth] and gradient steps they hold what they held, and
    [Finalize] then changes nothing. *)
Theorem averaged_stores_untouched_without_average p calls num_iterations :
  use_average_ p = false →
  SPV.values_ (averaged_weights_ (run_calls p calls))
  = SPV.values_ (averaged_weights_ p)
  ∧ SLPV.values_ (averaged_labeled_weights_ (run_calls p calls))
    = SLPV.values_ (averaged_labeled_weights_ p)
  ∧ Finalize (run_calls p calls) num_iterations = run_calls p calls.
Proof.
  intros Hu.
  assert (use_average_ (run_calls p calls) = false
          ∧ SPV.values_ (averaged_weights_ (run_calls p calls))
            = SPV.values_ (averaged_weights_ p)
          ∧ SLPV.values_ (averaged_labeled_weights_ (run_calls p calls))
            = SLPV.values_ (averaged_labeled_weights_ p)) as (Hu' & Ha & Hal).
  { unfold run_calls. revert p Hu.
    induction calls as [|c calls IH]; intros p Hu; [done|].
    cbn [foldl]. destruct (run_call_without_average p c Hu) as (Hu1 & <- & <-).
    by apply IH. }
  split_and!; [done|done|]. unfold Finalize. by rewrite Hu'.
Qed.

End step_frames.

Lemma averaged_stores_untouched_without_average_witness :
  let p : Parameters.t Qc := Parameters.Initialize Parameters.new false in
  let calls := [Driver.CallMakeGradientStep [7]%N 1%Qc 0 1%Qc;
                Driver.CallStopGrowth;
                Driver.CallMakeLabelGradientStep [7; 8]%N 1%Qc 1 2 1%Qc] in
  SparseParameterVector.values_
    (Parameters.averaged_weights_ (Driver.run_calls (lock := lock_features) p calls)) = ∅.
Proof.
  intros p calls.
  apply (proj1 (averaged_stores_untouched_without_average p calls 3 eq_refl)).
Defined.

(** ** [StopGrowth] freezes the feature set *)

Section frozen_keys.
Context `{DoubleOps W} {lock : LabelLock}.
Import Parameters Driver.
Implicit Types (p : Parameters.t W) (features : list N)
  (c : call W) (calls : list (call W)).

(** Whatever the lock covers, a stopped store takes no new feature. *)
Lemma dom_values_Add_labeled_stopped (s : SLPV.t W) key l delta :
  SLPV.growth_stopped_ s = true →
  dom (SLPV.values_ (SLPV.Add s key l delta)) = dom (SLPV.values_ s).
Proof.
  intros Hg. unfold SLPV.Add.
  destruct (SLPV.values_ s !! key) as [lw|] eqn:E; simpl.
  - assert (key ∈ dom (SLPV.values_ s)) as Hin by (by apply elem_of_dom).
    destruct (lw !! l); simpl; [|destruct (SLPV.refuses s key); [done|simpl]];
      rewrite dom_insert_L; by apply subseteq_union_1_L, singleton_subseteq_l.
  - rewrite refuses_absent; [done|done|].
    unfold SLPV.Exists. rewrite E. apply bool_decide_eq_false_2. by intros [? ?].
Qed.

(** The keys of the two live stores: the feature ids of both. *)
Lemma frozen_MakeGradientStep p features eta iteration gradient :
  SPV.growth_stopped_ (weights_ p) = true →
  dom (SPV.values_ (weights_ (MakeGradientStep p features eta iteration gradient)))
  = dom (SPV.values_ (weights_ p)).
Proof.
  unfold MakeGradientStep.
  rewrite (foldl_seq_lookup (MakeGradientStep_feature eta iteration gradient)).
  revert p. induction features as [|f fs IH]; intros p Hg; [done|].
  cbn [foldl]. rewrite IH.
  - simpl. by apply dom_Add_stopped.
  - simpl. by rewrite growth_stopped_Add.
Qed.

Lemma frozen_foldl_Add_labeled (s : SLPV.t W) features l delta :
  SLPV.growth_stopped_ s = true →
  dom (SLPV.values_ (foldl (λ s j, SLPV.Add s (features !!! j) l delta) s
                           (seq 0 (length features))))
  = dom (SLPV.values_ s).
Proof.
  intros Hg.
  rewrite (foldl_seq_lookup (λ s f, SLPV.Add s f l delta)).
  revert s Hg. induction features as [|f fs IH]; intros s Hg; [done|].
  cbn [foldl]. rewrite IH by (by rewrite growth_stopped_Add_labeled).
  by apply dom_values_Add_labeled_stopped.
Qed.

Lemma Exists_dom (s s' : SPV.t W) key :
  dom (SPV.values_ s') = dom (SPV.values_ s) →
  SPV.Exists s' key = SPV.Exists s key.
Proof.
  intros Hd. unfold SPV.Exists. apply bool_decide_ext.
  by rewrite <- !elem_of_dom, Hd.
Qed.

Lemma Exists_dom_labeled (s s' : SLPV.t W) key :
  dom (SLPV.values_ s') = dom (SLPV.values_ s) →
  SLPV.Exists s' key = SLPV.Exists s key.
Proof.
  intros Hd. unfold SLPV.Exists. apply bool_decide_ext.
  by rewrite <- !elem_of_dom, Hd.
Qed.

(** X13. Once growth is stopped, gradient steps add no feature: after
    [StopGrowth] and any sequence of calls without [AllowGrowth], the
    object has the same size, the same simple features and the same labeled
    features as before, whether or not the lock of the labeled store lets a
    feature it has take new labels. *)
Theorem StopGrowth_freezes_keys p calls :
  Forall (λ c, c ≠ CallAllowGrowth) calls →
  let p' := run_calls (StopGrowth p) calls in
  Size p' = Size p
  ∧ (∀ key, Exists p' key = Exists p key)
  ∧ (∀ key, ExistsLabeled p' key = ExistsLabeled p key).
Proof.
  intros Hcalls p'.
  assert (SPV.growth_stopped_ (weights_ p') = true
          ∧ SLPV.growth_stopped_ (labeled_weights_ p') = true
          ∧ dom (SPV.values_ (weights_ p')) = dom (SPV.values_ (weights_ p))
          ∧ dom (SLPV.values_ (labeled_weights_ p'))
            = dom (SLPV.values_ (labeled_weights_ p)))
    as (_ & _ & Hd & Hdl).
  { subst p'. unfold run_calls.
    assert (SPV.growth_stopped_ (weights_ (StopGrowth p)) = true
            ∧ SLPV.growth_stopped_ (labeled_weights_ (StopGrowth p)) = true
            ∧ dom (SPV.values_ (weights_ (StopGrowth p)))
              = dom (SPV.values_ (weights_ p))
            ∧ dom (SLPV.values_ (labeled_weights_ (StopGrowth p)))
              = dom (SLPV.values_ (labeled_weights_ p))) as Hinv
      by done.
    revert Hinv. generalize (StopGrowth p). intros p0.
    revert p0. induction Hcalls as [|c calls Hc _ IH]; intros p0 Hinv; [done|].
    cbn [foldl]. apply IH. destruct Hinv as (Hg & Hgl & Hd & Hdl).
    destruct c as [| |features eta iteration gradient
                   |features eta iteration l gradient]; simpl.
    - done.
    - done.
    - destruct (MakeGradientStep_labeled_frame p0 features eta iteration gradient)
        as (-> & _ & _).
      assert (flags (MakeGradientStep p0 features eta iteration gradient)
              = flags p0) as Hf by apply flags_MakeGradientStep.
      injection Hf as Hf1 _ _ _.
      split_and!; [congruence|done| |done].
      by rewrite frozen_MakeGradientStep.
    - rewrite growth_stopped_foldl_Add_labeled.
      rewrite frozen_foldl_Add_labeled by done.
      by split_and!. }
  split_and!; [|by intros; apply Exists_dom
               |by intros; apply Exists_dom_labeled].
  unfold Size, SPV.Size, SLPV.Size.
  by rewrite <- (size_dom (SPV.values_ (weights_ p'))),
             <- (size_dom (SLPV.values_ (labeled_weights_ p'))), Hd, Hdl,
             !size_dom.
Qed.

End frozen_keys.

Lemma StopGrowth_freezes_keys_witness :
  let p : Parameters.t Qc :=
    Parameters.MakeLabelGradientStep (lock := lock_features)
      (Parameters.MakeGradientStep Parameters.new [7]%N 1%Qc 0 1%Qc)
      [7]%N 1%Qc 0 1 1%Qc in
  let calls := [Driver.CallMakeGradientStep [7; 8]%N 1%Qc 1 1%Qc;
                Driver.CallMakeLabelGradientStep [7; 9]%N 1%Qc 1 2 1%Qc] in
  Parameters.Size (Driver.run_calls (lock := lock_features)
                     (Parameters.StopGrowth p) calls) = 2
  ∧ Parameters.Size (Driver.run_calls (lock := lock_pairs)
                       (Parameters.StopGrowth p) calls) = 2.
Proof.
  intros p calls. split.
  - apply (proj1 (StopGrowth_freezes_keys (lock := lock_features) p calls
                    ltac:(repeat constructor; discriminate))).
  - apply (proj1 (StopGrowth_freezes_keys (lock := lock_pairs) p calls
                    ltac:(repeat constructor; discriminate))).
Defined.

(** ** Updates, finalisation and scaling in exact arithmetic *)

Section exact_updates.
Context {lock : LabelLock}.
Import Parameters.
Implicit Types (p : Parameters.t Qc) (s : SPV.t Qc) (key f : N)
  (features : list N).

Local Open Scope Qc_scope.

Local Ltac qc_ops :=
  cbn [wadd wmul wneg wdiv wof_int w0 w1 Qc_ops] in *.

Lemma MakeGradientStep_growth p features (eta : Qc) iteration (gradient : Qc) :
  SPV.growth_stopped_
    (weights_ (MakeGradientStep p features eta iteration gradient))
  = SPV.growth_stopped_ (weights_ p).
Proof.
  pose proof (flags_MakeGradientStep p features eta iteration gradient) as Hf.
  by injection Hf.
Qed.

(** X14. While the store may grow, a gradient step lowers the weight of a
    feature by [eta * gradient] as many times as the feature is listed:
    once for each occurrence, not at all for a feature that is not
    listed. *)
Theorem MakeGradientStep_Get p features (eta : Qc) iteration (gradient : Qc) key :
  SPV.growth_stopped_ (weights_ p) = false →
  Get (MakeGradientStep p features eta iteration gradient) key
  = Get p key
    - Qc_of_Z (Z.of_nat (length (filter (λ f, f = key) features)))
      * (eta * gradient).
Proof.
  rewrite MakeGradientStep_fold.
  revert p. induction features as [|f fs IH]; intros p Hg.
  - rewrite filter_nil. cbn [foldl length].
    change (Z.of_nat 0) with 0%Z. rewrite Z2Qc_inj_0. ring.
  - cbn [foldl]. rewrite IH by (simpl; by rewrite growth_stopped_Add).
    unfold Get at 1. simpl. rewrite Get_Add by done. qc_ops.
    rewrite filter_cons. unfold Get.
    destruct (decide (key = f)) as [->|Hne].
    + rewrite decide_True by done. cbn [length].
      rewrite Nat2Z.inj_succ, <- Z.add_1_r, Z2Qc_inj_add, Z2Qc_inj_1. ring.
    + by rewrite decide_False by congruence.
Qed.

Lemma Get_Add_ne s key (delta : Qc) key' :
  key' ≠ key → SPV.Get (SPV.Add s key delta) key' = SPV.Get s key'.
Proof.
  intros Hne. unfold SPV.Get, SPV.Add.
  destruct (SPV.values_ s !! key); simpl.
  - by rewrite lookup_insert_ne.
  - destruct (SPV.growth_stopped_ s); [done|]. simpl.
    by rewrite lookup_insert_ne.
Qed.

Lemma Get_Add_eq s key (delta : Qc) :
  SPV.Get (SPV.Add s key delta) key
  = if SPV.growth_stopped_ s && negb (SPV.Exists s key)
    then SPV.Get s key else SPV.Get s key + delta.
Proof.
  unfold SPV.Get, SPV.Add, SPV.Exists.
  destruct (SPV.values_ s !! key) as [w|] eqn:E.
  - rewrite bool_decide_eq_true_2 by (by eexists).
    rewrite andb_false_r. simpl. by rewrite lookup_insert_eq.
  - rewrite bool_decide_eq_false_2 by (by intros [? ?]).
    destruct (SPV.growth_stopped_ s); simpl; [by rewrite E|].
    by rewrite lookup_insert_eq.
Qed.

Lemma Exists_Add_stopped s key (delta : Qc) key' :
  SPV.growth_stopped_ s = true →
  SPV.Exists (SPV.Add s key delta) key' = SPV.Exists s key'.
Proof. intros Hg. by apply Exists_dom, dom_Add_stopped. Qed.

(** Adding a whole store: a weight of [other] is added to the weight of
    its key, except that a store that may not grow drops the weights of
    the keys it does not have. *)
Lemma Get_AddVector_any s other key :
  SPV.Get (SPV.AddVector s other) key
  = if SPV.growth_stopped_ s && negb (SPV.Exists s key)
    then SPV.Get s key else SPV.Get s key + SPV.Get other key.
Proof.
  unfold SPV.AddVector.
  cut (let r := map_fold (λ key value acc, SPV.Add acc key value) s
                         (SPV.values_ other) in
       SPV.growth_stopped_ r = SPV.growth_stopped_ s
       ∧ (SPV.growth_stopped_ s = true →
          ∀ key, SPV.Exists r key = SPV.Exists s key)
       ∧ ∀ key, SPV.Get r key
                = if SPV.growth_stopped_ s && negb (SPV.Exists s key)
                  then SPV.Get s key
                  else SPV.Get s key + default 0 (SPV.values_ other !! key)).
  { intros (_ & _ & Hget). apply Hget. }
  apply (map_fold_weak_ind
    (λ r m, SPV.growth_stopped_ r = SPV.growth_stopped_ s
            ∧ (SPV.growth_stopped_ s = true →
               ∀ key, SPV.Exists r key = SPV.Exists s key)
            ∧ ∀ key, SPV.Get r key
                     = if SPV.growth_stopped_ s && negb (SPV.Exists s key)
                       then SPV.Get s key
                       else SPV.Get s key + default 0 (m !! key))).
  - split_and!; [done|done|]. intros k. rewrite lookup_empty. simpl.
    destruct (_ && _); ring.
  - intros i x m r Hi (Hgr & Hex & Hr). split_and!.
    + by rewrite growth_stopped_Add.
    + intros Hg k. rewrite Exists_Add_stopped by congruence. by apply Hex.
    + intros k. destruct (decide (k = i)) as [->|Hne].
      * rewrite Get_Add_eq, Hgr, lookup_insert_eq, Hr, Hi. simpl.
        destruct (SPV.growth_stopped_ s) eqn:Hg; simpl.
        -- rewrite Hex by done. destruct (SPV.Exists s i); simpl; ring.
        -- ring.
      * rewrite Get_Add_ne, lookup_insert_ne by done. apply Hr.
Qed.

(** X15. [Finalize] on an averaging object, with a number of iterations
    other than 0, adds to every live weight the averaged weight of its key
    divided by the number of iterations; the one exception is a key the
    live store does not have while its growth is stopped, whose
    contribution is dropped. *)
Theorem Finalize_Get p num_iterations key :
  use_average_ p = true → num_iterations ≠ 0%Z →
  Get (Finalize p num_iterations) key
  = if SPV.growth_stopped_ (weights_ p) && negb (Exists p key)
    then Get p key
    else Get p key
         + SPV.Get (averaged_weights_ p) key * (1 / Qc_of_Z num_iterations).
Proof.
  intros Hu _. unfold Finalize, Get, Exists. rewrite Hu. simpl.
  by rewrite Get_AddVector_any, Get_Scale_Qc.
Qed.

Lemma growth_stopped_AddVector s other :
  SPV.growth_stopped_ (SPV.AddVector s other) = SPV.growth_stopped_ s.
Proof.
  unfold SPV.AddVector.
  apply (map_fold_weak_ind
           (λ r (m : gmap N Qc), SPV.growth_stopped_ r = SPV.growth_stopped_ s)).
  - done.
  - intros i x m r _ Hr. by rewrite growth_stopped_Add.
Qed.

(** X20. [Finalize] is not idempotent: it leaves the averaged weights
    divided by the number of iterations in the averaged store, and a second
    call adds them to the live weights again, divided once more. *)
Theorem Finalize_twice p num_iterations key :
  use_average_ p = true → SPV.growth_stopped_ (weights_ p) = false →
  num_iterations ≠ 0%Z →
  Get (Finalize (Finalize p num_iterations) num_iterations) key
  = Get p key
    + SPV.Get (averaged_weights_ p) key * (1 / Qc_of_Z num_iterations)
    + SPV.Get (averaged_weights_ p) key * (1 / Qc_of_Z num_iterations)
      * (1 / Qc_of_Z num_iterations).
Proof.
  intros Hu Hg _. unfold Finalize, Get. rewrite Hu. simpl.
  rewrite !Get_AddVector_any, growth_stopped_AddVector, Hg. simpl.
  by rewrite !Get_Scale_Qc.
Qed.

Lemma foldl_score_scale (g : N → Qc) (c acc : Qc) features :
  foldl (λ score f, score + g f * c) (acc * c) features
  = foldl (λ score f, score + g f) acc features * c.
Proof.
  revert acc. induction features as [|f fs IH]; intros acc; [done|].
  simpl. rewrite <- IH. f_equal. ring.
Qed.

Lemma GetWeight_Scale_Qc (s : SLPV.t Qc) (c : Qc) f l :
  SLPV.GetWeight (SLPV.Scale s c) f l = SLPV.GetWeight s f l * c.
Proof.
  unfold SLPV.GetWeight, SLPV.Scale. simpl. rewrite lookup_fmap.
  destruct (SLPV.values_ s !! f) as [lw|]; simpl; [|ring].
  rewrite lookup_fmap. destruct (lw !! l); simpl; qc_ops; ring.
Qed.

Lemma ExistsLabeled_Scale p (c : Qc) f :
  ExistsLabeled (Scale p c) f = ExistsLabeled p f.
Proof.
  unfold ExistsLabeled, SLPV.Exists. simpl. apply bool_decide_ext.
  rewrite lookup_fmap. by rewrite fmap_is_Some.
Qed.

(** X16. Scaling the parameters scales every score: after
    [Scale(scale_factor)] each simple score and each label score is the
    one before times the factor.  The cache is left as it is. *)
Theorem Scale_scores p (c : Qc) features labels :
  ComputeScore (Scale p c) features = ComputeScore p features * c
  ∧ ComputeLabelScores (Scale p c) features labels
    = (λ x, x * c) <$> ComputeLabelScores p features labels
  ∧ caching_weights_ (Scale p c) = caching_weights_ p.
Proof.
  split_and!; [| |done].
  - rewrite !ComputeScore_foldl. qc_ops.
    rewrite <- foldl_score_scale.
    replace (0 * c) with 0 by ring.
    apply foldl_ext_elem. intros acc f _. f_equal.
    unfold Get. simpl. apply Get_Scale_Qc.
  - rewrite !ComputeLabelScores_fold. apply list_eq. intros k.
    rewrite list_lookup_fmap.
    destruct (decide (k < length labels)%nat) as [Hk|Hk].
    + rewrite !lookup_foldl_ComputeLabelScores_feature by done.
      rewrite (lookup_replicate_2 (length labels) (w0 : Qc) k Hk). simpl.
      f_equal. qc_ops.
      rewrite <- foldl_score_scale. replace (0 * c) with 0 by ring.
      assert (filter (λ f, ExistsLabeled (Scale p c) f = true) features
              = filter (λ f, ExistsLabeled p f = true) features) as ->.
      { apply list_filter_iff. intros f. by rewrite ExistsLabeled_Scale. }
      apply foldl_ext_elem. intros acc f _. f_equal.
      apply GetWeight_Scale_Qc.
    + assert (∀ q : Parameters.t Qc,
                foldl (ComputeLabelScores_feature q labels)
                      (replicate (length labels) w0) features !! k = None)
        as Hnone.
      { intros q. apply lookup_ge_None_2.
        generalize (replicate (length labels) (w0 : Qc))
                   (length_replicate (length labels) (w0 : Qc)).
        induction features as [|f fs IH]; intros scores Hs; [simpl; lia|].
        cbn [foldl]. apply IH. by rewrite length_ComputeLabelScores_feature. }
      by rewrite !Hnone.
Qed.

End exact_updates.

Lemma MakeGradientStep_Get_witness :
  Parameters.Get
    (Parameters.MakeGradientStep (Parameters.Initialize Parameters.new true)
       [7; 8; 7]%N (Qc_of_Z 2) 0 (Qc_of_Z 3)) 7%N
  = (0 - Qc_of_Z 2 * (Qc_of_Z 2 * Qc_of_Z 3))%Qc.
Proof.
  apply (MakeGradientStep_Get (Parameters.Initialize Parameters.new true)
           [7; 8; 7]%N (Qc_of_Z 2) 0 (Qc_of_Z 3) 7%N eq_refl).
Defined.

Lemma Finalize_Get_witness :
  let p : Parameters.t Qc :=
    Parameters.MakeGradientStep (Parameters.Initialize Parameters.new true)
      [7]%N 1%Qc 1 1%Qc in
  Parameters.Get (Parameters.Finalize (lock := lock_features) p 2) 7%N
  = (Parameters.Get p 7%N
     + SparseParameterVector.Get (Parameters.averaged_weights_ p) 7%N
       * (1 / Qc_of_Z 2))%Qc.
Proof.
  intros p. apply (Finalize_Get p 2 7%N eq_refl). discriminate.
Defined.

Lemma Finalize_twice_witness :
  let p : Parameters.t Qc :=
    Parameters.MakeGradientStep (Parameters.Initialize Parameters.new true)
      [7]%N 1%Qc 1 1%Qc in
  Parameters.Get (Parameters.Finalize (lock := lock_features) (Parameters.Finalize (lock := lock_features) p 2) 2) 7%N
  = (Parameters.Get p 7%N
     + SparseParameterVector.Get (Parameters.averaged_weights_ p) 7%N
       * (1 / Qc_of_Z 2)
     + SparseParameterVector.Get (Parameters.averaged_weights_ p) 7%N
       * (1 / Qc_of_Z 2) * (1 / Qc_of_Z 2))%Qc.
Proof.
  intros p. apply (Finalize_twice p 2 7%N eq_refl eq_refl). discriminate.
Defined.

(** ** The averaging identity for the labeled weights *)

Section labeled_averaging_facts.
Context {lock : LabelLock}.
Import Parameters LabeledAveraging.
Implicit Types (p : Parameters.t Qc) (s a : SLPV.t Qc) (key f : N) (l : Z)
  (features : list N) (updates : list update) (u : N → Z → Qc).

Local Open Scope Qc_scope.

Local Ltac qc_ops :=
  cbn [wadd wmul wneg wdiv wof_int w0 w1 Qc_ops] in *.

Lemma GetWeight_Add_Qc s key l (delta : Qc) key' l' :
  SLPV.growth_stopped_ s = false →
  SLPV.GetWeight (SLPV.Add s key l delta) key' l'
  = if decide (key' = key ∧ l' = l)
    then SLPV.GetWeight s key l + delta
    else SLPV.GetWeight s key' l'.
Proof.
  intros Hg. unfold SLPV.GetWeight, SLPV.Add.
  rewrite (refuses_allowed s key Hg).
  destruct (SLPV.values_ s !! key) as [lw|] eqn:Ef; simpl.
  - destruct (lw !! l) as [w|] eqn:El; simpl.
    + destruct (decide (key' = key)) as [->|Hk].
      * rewrite lookup_insert_eq. simpl.
        destruct (decide (l' = l)) as [->|Hl].
        -- rewrite decide_True by done. by rewrite lookup_insert_eq.
        -- rewrite decide_False by (by intros [_ ?]).
           by rewrite lookup_insert_ne, Ef.
      * rewrite decide_False by (by intros [? _]).
        by rewrite lookup_insert_ne.
    + destruct (decide (key' = key)) as [->|Hk].
      * rewrite lookup_insert_eq. simpl.
        destruct (decide (l' = l)) as [->|Hl].
        -- rewrite decide_True by done. by rewrite lookup_insert_eq.
        -- rewrite decide_False by (by intros [_ ?]).
           by rewrite lookup_insert_ne, Ef.
      * rewrite decide_False by (by intros [? _]).
        by rewrite lookup_insert_ne.
  - destruct (decide (key' = key)) as [->|Hk].
    + rewrite lookup_insert_eq. simpl.
      destruct (decide (l' = l)) as [->|Hl].
      * rewrite decide_True by done. by rewrite lookup_insert_eq.
      * rewrite decide_False by (by intros [_ ?]).
        by rewrite lookup_insert_ne, lookup_empty, Ef.
    + rewrite decide_False by (by intros [? _]).
      by rewrite lookup_insert_ne.
Qed.

(** The labels of one feature of [other] added into a store that may
    grow. *)
Lemma GetWeight_add_labels s key (lw : gmap Z Qc) key' l' :
  SLPV.growth_stopped_ s = false →
  let r := map_fold (λ l value acc, SLPV.Add acc key l value) s lw in
  SLPV.growth_stopped_ r = false
  ∧ SLPV.GetWeight r key' l'
    = SLPV.GetWeight s key' l'
      + (if decide (key' = key) then default 0 (lw !! l') else 0).
Proof.
  intros Hg r. subst r.
  cut (SLPV.growth_stopped_
         (map_fold (λ l value acc, SLPV.Add acc key l value) s lw) = false
       ∧ ∀ key' l',
           SLPV.GetWeight
             (map_fold (λ l value acc, SLPV.Add acc key l value) s lw) key' l'
           = SLPV.GetWeight s key' l'
             + (if decide (key' = key) then default 0 (lw !! l') else 0)).
  { intros [? Hget]. split; [done|apply Hget]. }
  apply (map_fold_weak_ind
    (λ r m, SLPV.growth_stopped_ r = false
            ∧ ∀ key' l', SLPV.GetWeight r key' l'
                         = SLPV.GetWeight s key' l'
                           + (if decide (key' = key)
                              then default 0 (m !! l') else 0))).
  - split; [done|]. intros k' j'. rewrite lookup_empty. simpl.
    destruct (decide _); ring.
  - intros i x m r Hi [Hgr Hr]. split.
    + by rewrite growth_stopped_Add_labeled.
    + intros k' j'. rewrite GetWeight_Add_Qc by done. qc_ops.
      destruct (decide (k' = key ∧ j' = i)) as [[-> ->]|Hne].
      * rewrite Hr. rewrite !decide_True by done.
        rewrite Hi, lookup_insert_eq. simpl. ring.
      * rewrite Hr. destruct (decide (k' = key)) as [->|]; [|done].
        rewrite lookup_insert_ne; [done|]. intros ->. by apply Hne.
Qed.

Lemma GetWeight_AddVector_Qc s other key l :
  SLPV.growth_stopped_ s = false →
  SLPV.GetWeight (SLPV.AddVector s other) key l
  = SLPV.GetWeight s key l + SLPV.GetWeight other key l.
Proof.
  intros Hg. unfold SLPV.AddVector.
  cut (SLPV.growth_stopped_
         (map_fold (λ key lw acc,
                      map_fold (λ l value acc', SLPV.Add acc' key l value) acc lw)
                   s (SLPV.values_ other)) = false
       ∧ ∀ key l,
           SLPV.GetWeight
             (map_fold (λ key lw acc,
                          map_fold (λ l value acc', SLPV.Add acc' key l value)
                                   acc lw)
                       s (SLPV.values_ other)) key l
           = SLPV.GetWeight s key l
             + default 0 (SLPV.values_ other !! key ≫= (.!! l))).
  { intros [_ Hget]. apply Hget. }
  apply (map_fold_weak_ind
    (λ r (m : gmap N (gmap Z Qc)),
       SLPV.growth_stopped_ r = false
       ∧ ∀ key l, SLPV.GetWeight r key l
                  = SLPV.GetWeight s key l + default 0 (m !! key ≫= (.!! l)))).
  - split; [done|]. intros k j. rewrite lookup_empty. simpl. ring.
  - intros i lw m r Hi [Hgr Hr]. split.
    + apply (GetWeight_add_labels r i lw i 0%Z Hgr).
    + intros k j.
      rewrite (proj2 (GetWeight_add_labels r i lw k j Hgr)), Hr.
      destruct (decide (k = i)) as [->|Hne].
      * rewrite Hi, lookup_insert_eq. simpl. ring.
      * rewrite lookup_insert_ne by done. ring.
Qed.

Lemma GetWeight_Finalize p num_iterations key l :
  averaging p →
  SLPV.GetWeight (labeled_weights_ (Finalize p num_iterations)) key l
  = SLPV.GetWeight (labeled_weights_ p) key l
    + SLPV.GetWeight (averaged_labeled_weights_ p) key l
      * (1 / Qc_of_Z num_iterations).
Proof.
  intros (Hu & Hg & _). unfold Finalize. rewrite Hu. simpl.
  rewrite GetWeight_AddVector_Qc by done. by rewrite GetWeight_Scale_Qc.
Qed.

(** The first loop of the step on the live store: it follows the naive
    update. *)
Lemma foldl_Add_naive_update features s (eta : Qc) l (gradient : Qc) u :
  SLPV.growth_stopped_ s = false →
  (∀ key' l', SLPV.GetWeight s key' l' = u key' l') →
  let s' := foldl (λ s j, SLPV.Add s (features !!! j) l (wmul (wneg eta) gradient))
                  s (seq 0 (length features)) in
  SLPV.growth_stopped_ s' = false
  ∧ ∀ key' l', SLPV.GetWeight s' key' l'
               = naive_update u features eta l gradient key' l'.
Proof.
  intros Hg Hu s'. subst s'.
  rewrite (foldl_seq_lookup (λ s f, SLPV.Add s f l (wmul (wneg eta) gradient))).
  unfold naive_update.
  revert s u Hg Hu. induction features as [|f fs IH]; intros s u Hg Hu; [done|].
  cbn [foldl]. apply IH.
  - by rewrite growth_stopped_Add_labeled.
  - intros key' l'. rewrite GetWeight_Add_Qc by done. qc_ops.
    destruct (decide (key' = f ∧ l' = l)) as [[-> ->]|Hne].
    + rewrite Hu. ring.
    + apply Hu.
Qed.

(** The two loops of the step together leave [t * live + averaged] where
    it was. *)
Lemma foldl_Add_running_sum features s a (eta : Qc) t l (gradient : Qc) :
  SLPV.growth_stopped_ s = false → SLPV.growth_stopped_ a = false →
  let s' := foldl (λ s j, SLPV.Add s (features !!! j) l (wmul (wneg eta) gradient))
                  s (seq 0 (length features)) in
  let a' := foldl (λ s j, SLPV.Add s (features !!! j) l
                            (wmul (wmul (wof_int t) eta) gradient))
                  a (seq 0 (length features)) in
  SLPV.growth_stopped_ a' = false
  ∧ ∀ key' l', Qc_of_Z t * SLPV.GetWeight s' key' l' + SLPV.GetWeight a' key' l'
               = Qc_of_Z t * SLPV.GetWeight s key' l' + SLPV.GetWeight a key' l'.
Proof.
  intros Hgs Hga s' a'. subst s' a'.
  rewrite (foldl_seq_lookup (λ s f, SLPV.Add s f l (wmul (wneg eta) gradient))).
  rewrite (foldl_seq_lookup
             (λ s f, SLPV.Add s f l (wmul (wmul (wof_int t) eta) gradient))).
  revert s a Hgs Hga.
  induction features as [|f fs IH]; intros s a Hgs Hga; [done|].
  cbn [foldl].
  destruct (IH (SLPV.Add s f l (wmul (wneg eta) gradient))
               (SLPV.Add a f l (wmul (wmul (wof_int t) eta) gradient)))
    as [Hga' Hsum]; [by rewrite growth_stopped_Add_labeled..|].
  split; [done|]. intros key' l'.
  rewrite Hsum, !GetWeight_Add_Qc by done. qc_ops.
  destruct (decide (key' = f ∧ l' = l)) as [[-> ->]|Hne]; ring.
Qed.

Lemma MakeLabelGradientStep_running_sum features p (eta : Qc) t l
    (gradient : Qc) u :
  averaging p →
  (∀ key' l', SLPV.GetWeight (labeled_weights_ p) key' l' = u key' l') →
  let p' := MakeLabelGradientStep p features eta t l gradient in
  averaging p'
  ∧ (∀ key' l', SLPV.GetWeight (labeled_weights_ p') key' l'
                = naive_update u features eta l gradient key' l')
  ∧ (∀ key' l',
       Qc_of_Z t * SLPV.GetWeight (labeled_weights_ p') key' l'
       + SLPV.GetWeight (averaged_labeled_weights_ p') key' l'
       = Qc_of_Z t * SLPV.GetWeight (labeled_weights_ p) key' l'
         + SLPV.GetWeight (averaged_labeled_weights_ p) key' l').
Proof.
  intros (Hu & Hg & Hga) Hw p'. subst p'.
  unfold MakeLabelGradientStep, averaging. simpl. rewrite Hu.
  destruct (foldl_Add_naive_update features (labeled_weights_ p) eta l gradient
              u Hg Hw) as [Hg' Hnaive].
  destruct (foldl_Add_running_sum features (labeled_weights_ p)
              (averaged_labeled_weights_ p) eta t l gradient Hg Hga)
    as [Hga' Hsum].
  split_and!; done.
Qed.

Lemma train_labeled_running_sum updates p t u :
  averaging p →
  (∀ key l, SLPV.GetWeight (labeled_weights_ p) key l = u key l) →
  let p' := train p t updates in
  averaging p'
  ∧ (∀ key l,
       Qc_of_Z (t + Z.of_nat (length updates))
       * SLPV.GetWeight (labeled_weights_ p') key l
       + SLPV.GetWeight (averaged_labeled_weights_ p') key l
       = Qc_of_Z t * SLPV.GetWeight (labeled_weights_ p) key l
         + SLPV.GetWeight (averaged_labeled_weights_ p) key l
         + snapshot_sum (naive_snapshots u updates) key l).
Proof.
  intros Hp Hu p'. subst p'. revert p t u Hp Hu.
  induction updates as [|[[[features eta] l] gradient] rest IH];
    intros p t u Hp Hu.
  - split; [done|]. intros key j. simpl. rewrite Z.add_0_r. ring.
  - destruct (MakeLabelGradientStep_running_sum features p eta t l gradient u
                Hp Hu) as (Hp1 & Hget1 & Hsum1).
    destruct (IH _ (t + 1)%Z _ Hp1 Hget1) as (Hp2 & Hsum2).
    cbn [train naive_snapshots snapshot_sum foldr length].
    split; [done|]. intros key j.
    replace (t + Z.of_nat (S (length rest)))%Z
      with (t + 1 + Z.of_nat (length rest))%Z by lia.
    rewrite Hsum2.
    fold (snapshot_sum (naive_snapshots
                          (naive_update u features eta l gradient) rest) key j).
    rewrite Z2Qc_inj_add, Z2Qc_inj_1, <- Hget1.
    set (p1 := MakeLabelGradientStep p features eta t l gradient) in *.
    transitivity (Qc_of_Z t * SLPV.GetWeight (labeled_weights_ p1) key j
                  + SLPV.GetWeight (averaged_labeled_weights_ p1) key j
                  + SLPV.GetWeight (labeled_weights_ p1) key j
                  + snapshot_sum
                      (naive_snapshots (naive_update u features eta l gradient)
                                       rest) key j); [ring|].
    rewrite Hsum1. ring.
Qed.

(** X17. The averaging identity holds for the labeled weights as well:
    after [T] calls of [MakeLabelGradientStep] on a fresh averaging object,
    at the iterations [0 .. T-1], [Finalize(T)] leaves as weight of every
    (feature, label) pair the average of the [T] snapshots a naive
    reference takes after each call. *)
Theorem labeled_lazy_average_is_naive_average updates f l :
  lazy_average 0 updates f l = naive_average updates f l.
Proof.
  unfold lazy_average, naive_average.
  assert (averaging (Initialize new true)) as Hp0 by done.
  destruct (train_labeled_running_sum updates (Initialize new true) 0
              (λ _ _, 0) Hp0) as (Hp & Hsum); [done|].
  rewrite GetWeight_Finalize by done.
  specialize (Hsum f l). rewrite Z.add_0_l in Hsum.
  change (SLPV.GetWeight (labeled_weights_ (Initialize new true)) f l)
    with 0 in Hsum.
  change (SLPV.GetWeight (averaged_labeled_weights_ (Initialize new true)) f l)
    with 0 in Hsum.
  assert (snapshot_sum (naive_snapshots (λ _ _, 0) updates) f l
          = Qc_of_Z (Z.of_nat (length updates))
            * SLPV.GetWeight
                (labeled_weights_ (train (Initialize new true) 0 updates)) f l
            + SLPV.GetWeight
                (averaged_labeled_weights_
                   (train (Initialize new true) 0 updates)) f l)
    as -> by (rewrite Hsum, Z2Qc_inj_0; ring).
  clear Hsum.
  destruct updates as [|upd rest].
  - change (SLPV.GetWeight
              (labeled_weights_ (train (Initialize new true) 0 [])) f l) with 0.
    change (SLPV.GetWeight
              (averaged_labeled_weights_ (train (Initialize new true) 0 []))
              f l) with 0.
    ring.
  - assert (Qc_of_Z (Z.of_nat (length (upd :: rest))) ≠ 0) as Hnz.
    { rewrite <- Z2Qc_inj_0. intros Heq%Z2Qc_inj. simpl in Heq. lia. }
    field. done.
Qed.

End labeled_averaging_facts.

(** ** The cache is never invalidated *)

Section stale_cache.
Context `{DoubleOps W} {lock : LabelLock}.
Import Parameters.
Implicit Types (p q : Parameters.t W) (features : list N) (labels : list Z)
  (scores : list W) (c : FLC.t W) (f : N).

(** One round through a cache that holds every pair of the feature: the
    scores added are the cached ones, the store is not asked. *)
Lemma warm_round q p labels scores c f :
  ExistsLabeled q f = true → ExistsLabeled p f = true →
  (∀ l, l ∈ labels → is_Some (FLC.Find c {| feature := f; label := l |})) →
  cache_coherent p c →
  ∃ c', ComputeLabelScoresWithCache_feature q labels (scores, c) f
        = (ComputeLabelScores_feature p labels scores f, c')
        ∧ FLC.cache_ c' = FLC.cache_ c.
Proof.
  intros Hq Hp Hwarm Hcoh.
  unfold ComputeLabelScoresWithCache_feature. rewrite Hq. simpl.
  destruct (probe_loop f labels scores c (length labels))
    as (sc1 & c1 & Heq & Hc1 & Hsc1 & _).
  rewrite Heq.
  assert (filter (λ i, FLC.Find c {| feature := f; label := labels !!! i |}
                       = None) (seq 0 (length labels)) = []) as Hnil.
  { apply elem_of_nil_inv.
    intros i [Hmiss Hi%elem_of_seq]%list_elem_of_filter.
    destruct (Hwarm (labels !!! i)) as [v Hv]; [|congruence].
    apply list_elem_of_lookup_total_2. lia. }
  rewrite Hnil. simpl. exists c1. split; [|done]. f_equal.
  apply list_eq. intros i.
  rewrite Hsc1, lookup_ComputeLabelScores_feature.
  destruct (decide (i < length labels)) as [Hi|Hi].
  - rewrite decide_True by done.
    destruct (Hwarm (labels !!! i)) as [v Hv].
    { apply list_elem_of_lookup_total_2. lia. }
    rewrite Hv. by rewrite (Hcoh _ _ Hv).
  - rewrite decide_False; [done|]. by intros [? _].
Qed.

Lemma warm_fold q p labels features scores c :
  (∀ f, f ∈ features → ExistsLabeled q f = true ∧ ExistsLabeled p f = true) →
  (∀ f l, f ∈ features → l ∈ labels →
          is_Some (FLC.Find c {| feature := f; label := l |})) →
  cache_coherent p c →
  ∃ c', foldl (ComputeLabelScoresWithCache_feature q labels) (scores, c) features
        = (foldl (ComputeLabelScores_feature p labels) scores features, c')
        ∧ FLC.cache_ c' = FLC.cache_ c.
Proof.
  revert scores c. induction features as [|f fs IH];
    intros scores c Hex Hwarm Hcoh.
  - by exists c.
  - destruct (Hex f) as [Hq Hp]; [left|].
    destruct (warm_round q p labels scores c f Hq Hp) as (c1 & Heq1 & Hc1);
      [intros l Hl; apply Hwarm; [left|done]|done|].
    destruct (IH (ComputeLabelScores_feature p labels scores f) c1)
      as (c2 & Heq2 & Hc2).
    + intros f' Hf'. apply Hex. by right.
    + intros f' l Hf' Hl. unfold FLC.Find. rewrite Hc1.
      apply Hwarm; [by right|done].
    + intros key v. unfold FLC.Find. rewrite Hc1. apply Hcoh.
    + exists c2. cbn [foldl]. rewrite Heq1, Heq2. split; [done|congruence].
Qed.

(** X18. The cache is not invalidated by updates.  Let a call be made on
    a coherent cache with features that all have labeled weights.  Then on
    any object that carries the cache this call left and still has the
    features, whatever its weights have become, the same call returns the
    scores of the weights as they were at the first call. *)
Theorem cached_scores_survive_updates p q features labels :
  cache_coherent p (caching_weights_ p) →
  (∀ f, f ∈ features → ExistsLabeled p f = true) →
  caching_weights_ q
  = caching_weights_ (ComputeLabelScoresWithCache p features labels).2 →
  (∀ f, f ∈ features → ExistsLabeled q f = true) →
  (ComputeLabelScoresWithCache q features labels).1
  = ComputeLabelScores p features labels.
Proof.
  intros Hcoh Hp Hcache Hq.
  destruct (ComputeLabelScoresWithCache_fold_cache p labels features
              (replicate (length labels) w0) (caching_weights_ p))
    as (sc1 & c1 & m1 & Heq1 & _ & _ & Hnew1 & _).
  destruct (ComputeLabelScoresWithCache_fold_spec p labels features
              (replicate (length labels) w0) (caching_weights_ p))
    as (sc1' & c1' & Heq1' & _ & Hspec).
  rewrite Heq1 in Heq1'. injection Heq1' as <- <-.
  destruct (Hspec Hcoh) as [_ Hcoh1].
  assert (caching_weights_ q = c1) as Hc.
  { rewrite Hcache. unfold ComputeLabelScoresWithCache.
    by rewrite ComputeLabelScoresWithCache_run_fold, Heq1. }
  destruct (warm_fold q p labels features (replicate (length labels) w0) c1)
    as (c2 & Heq2 & _).
  - intros f Hf. split; [by apply Hq|by apply Hp].
  - intros f l Hf Hl. apply Hnew1; [done|by apply Hp|done].
  - done.
  - unfold ComputeLabelScoresWithCache.
    rewrite ComputeLabelScoresWithCache_run_fold, Hc, Heq2.
    by rewrite ComputeLabelScores_fold.
Qed.

End stale_cache.

Lemma cached_scores_survive_updates_witness :
  let p : Parameters.t Z :=
    Parameters.MakeLabelGradientStep (lock := lock_features) Parameters.new [1; 2]%N (-1)%Z 0 5 3%Z in
  let p1 := (Parameters.ComputeLabelScoresWithCache p [1; 2]%N [5; 6]%Z).2 in
  let q := Parameters.MakeLabelGradientStep (lock := lock_features) p1 [1]%N (-1)%Z 1 5 10%Z in
  (Parameters.ComputeLabelScoresWithCache q [1; 2]%N [5; 6]%Z).1
  = Parameters.ComputeLabelScores p [1; 2]%N [5; 6]%Z
  ∧ Parameters.ComputeLabelScores p [1; 2]%N [5; 6]%Z = [6; 0]%Z
  ∧ Parameters.ComputeLabelScores q [1; 2]%N [5; 6]%Z = [16; 0]%Z.
Proof.
  intros p p1 q. split; [|split; reflexivity].
  apply (cached_scores_survive_updates p q [1; 2]%N [5; 6]%Z).
  - intros key v Hfind. vm_compute in Hfind. discriminate Hfind.
  - intros f Hf. apply list_elem_of_In in Hf. simpl in Hf.
    destruct Hf as [<-|[<-|[]]]; reflexivity.
  - reflexivity.
  - intros f Hf. apply list_elem_of_In in Hf. simpl in Hf.
    destruct Hf as [<-|[<-|[]]]; reflexivity.
Defined.

(** ** Size counts features, not weights *)

Section size_facts.
Context `{DoubleOps W} {lock : LabelLock}.
Import Parameters.
Implicit Types (p : Parameters.t W) (features : list N).

Lemma dom_values_Add_labeled (s : SLPV.t W) key l delta :
  SLPV.growth_stopped_ s = false →
  dom (SLPV.values_ (SLPV.Add s key l delta)) = {[key]} ∪ dom (SLPV.values_ s).
Proof.
  intros Hg. unfold SLPV.Add. rewrite (refuses_allowed s key Hg).
  destruct (SLPV.values_ s !! key ≫= (.!! l)); simpl; apply dom_insert_L.
Qed.

Lemma dom_foldl_Add (s : SPV.t W) features (g : N → W) :
  SPV.growth_stopped_ s = false →
  dom (SPV.values_ (foldl (λ s f, SPV.Add s f (g f)) s features))
  = list_to_set features ∪ dom (SPV.values_ s).
Proof.
  revert s. induction features as [|f fs IH]; intros s Hg.
  - simpl. by rewrite (left_id_L ∅ (∪)).
  - cbn [foldl list_to_set]. rewrite IH by (by rewrite growth_stopped_Add).
    rewrite dom_Add by done.
    rewrite (assoc_L (∪)), (comm_L (∪) (list_to_set fs) {[f]}). done.
Qed.

Lemma dom_foldl_Add_labeled (s : SLPV.t W) features l delta :
  SLPV.growth_stopped_ s = false →
  dom (SLPV.values_ (foldl (λ s j, SLPV.Add s (features !!! j) l delta) s
                           (seq 0 (length features))))
  = list_to_set features ∪ dom (SLPV.values_ s).
Proof.
  rewrite (foldl_seq_lookup (λ s f, SLPV.Add s f l delta)).
  revert s. induction features as [|f fs IH]; intros s Hg.
  - simpl. by rewrite (left_id_L ∅ (∪)).
  - cbn [foldl list_to_set].
    rewrite IH by (by rewrite growth_stopped_Add_labeled).
    rewrite dom_values_Add_labeled by done.
    rewrite (assoc_L (∪)), (comm_L (∪) (list_to_set fs) {[f]}). done.
Qed.

Lemma weights_MakeGradientStep p features eta iteration gradient :
  weights_ (MakeGradientStep p features eta iteration gradient)
  = foldl (λ s f, SPV.Add s f (wmul (wneg eta) gradient)) (weights_ p) features.
Proof.
  unfold MakeGradientStep.
  rewrite (foldl_seq_lookup (MakeGradientStep_feature eta iteration gradient)).
  revert p. induction features as [|f fs IH]; intros p; [done|].
  cbn [foldl]. by rewrite IH.
Qed.

(** X19. [Size] counts features: while the stores may grow, a gradient
    step on simple features makes it the number of distinct features among
    the old and the listed ones plus the labeled features, and a step on
    labeled features adds the listed features that had no labeled weights,
    whichever the label: a feature with several labels counts once. *)
Theorem Size_counts_features p features eta iteration l gradient :
  (SPV.growth_stopped_ (weights_ p) = false →
   Size (MakeGradientStep p features eta iteration gradient)
   = size (list_to_set features ∪ dom (SPV.values_ (weights_ p)))
     + SLPV.Size (labeled_weights_ p))
  ∧ (SLPV.growth_stopped_ (labeled_weights_ p) = false →
     Size (MakeLabelGradientStep p features eta iteration l gradient)
     = SPV.Size (weights_ p)
       + size (list_to_set features ∪ dom (SLPV.values_ (labeled_weights_ p)))).
Proof.
  split; intros Hg; unfold Size.
  - destruct (MakeGradientStep_labeled_frame p features eta iteration gradient)
      as (-> & _ & _).
    f_equal. unfold SPV.Size.
    rewrite weights_MakeGradientStep, <- size_dom.
    by rewrite (dom_foldl_Add _ _ (λ _, wmul (wneg eta) gradient)).
  - simpl. f_equal. unfold SLPV.Size.
    by rewrite <- size_dom, dom_foldl_Add_labeled.
Qed.

End size_facts.

Lemma Size_counts_features_witness :
  let p : Parameters.t Qc :=
    Parameters.MakeLabelGradientStep (lock := lock_features) Parameters.new [1; 2]%N 1%Qc 0 5 1%Qc in
  Parameters.Size (Parameters.MakeLabelGradientStep (lock := lock_features) p [2; 3; 3]%N 1%Qc 1 6 1%Qc)
  = 3.
Proof.
  intros p.
  apply (proj2 (Size_counts_features p [2; 3; 3]%N 1%Qc 1 6 1%Qc) eq_refl).
Defined.

(** ** Witnesses on concrete objects *)

Lemma pronoun_queries_only_for_pronouns_witness :
  let d : CoreferenceDictionary.t (bool * bool * bool * bool * bool) :=
    {| CoreferenceDictionary.all_pronouns_ :=
         {[ 11%Z := Some (true, false, false, true, false); 12%Z := None ]};
       CoreferenceDictionary.named_entity_tags_ := ∅;
       CoreferenceDictionary.person_entity_tags_ := ∅;
       CoreferenceDictionary.noun_phrase_tags_ := ∅;
       CoreferenceDictionary.proper_noun_tags_ := ∅;
       CoreferenceDictionary.pronominal_tags_ := ∅ |} in
  CoreferenceDictionary.IsPronoun d 11 = true
  ∧ CoreferenceDictionary.IsMalePronoun d 13 = false.
Proof.
  intros d. split.
  - apply (proj1 (pronoun_queries_only_for_pronouns d 11)). left. reflexivity.
  - apply (proj2 (pronoun_queries_only_for_pronouns d 13)). reflexivity.
Defined.

Lemma ComputeLabelScoresWithCache_cache_grows_witness :
  let k := {| feature := 9; label := 9 |} in
  let p0 : Parameters.t Z :=
    Parameters.MakeLabelGradientStep (lock := lock_features) Parameters.new [1; 2]%N (-1)%Z 0 5 3%Z in
  let p : Parameters.t Z :=
    {| Parameters.use_average_ := Parameters.use_average_ p0;
       Parameters.weights_ := Parameters.weights_ p0;
       Parameters.averaged_weights_ := Parameters.averaged_weights_ p0;
       Parameters.labeled_weights_ := Parameters.labeled_weights_ p0;
       Parameters.averaged_labeled_weights_ :=
         Parameters.averaged_labeled_weights_ p0;
       Parameters.caching_weights_ :=
         FeatureLabelCache.Insert FeatureLabelCache.new k 4%Z |} in
  FeatureLabelCache.Find
    (Parameters.caching_weights_
       (Parameters.ComputeLabelScoresWithCache p [1; 2]%N [5; 6]%Z).2) k
  = Some 4%Z.
Proof.
  intros k p0 p.
  apply (proj1 (proj2 (ComputeLabelScoresWithCache_cache_grows p [1; 2]%N
                         [5; 6]%Z)) k 4%Z).
  reflexivity.
Defined.

Lemma ComputeLabelScoresWithCache_caches_all_queries_witness :
  let p : Parameters.t Z :=
    Parameters.MakeLabelGradientStep (lock := lock_features) Parameters.new [1; 2]%N (-1)%Z 0 5 3%Z in
  FeatureLabelCache.Find
    (Parameters.caching_weights_
       (Parameters.ComputeLabelScoresWithCache p [1; 2]%N [5; 6]%Z).2)
    {| feature := 2; label := 5 |}
  = Some (SparseLabeledParameterVector.GetWeight
            (Parameters.labeled_weights_ p) 2%N 5%Z).
Proof.
  intros p.
  apply (proj2 (ComputeLabelScoresWithCache_caches_all_queries p [1; 2]%N
                  [5; 6]%Z 2%N 5%Z
                  ltac:(apply list_elem_of_In; simpl; auto)
                  eq_refl
                  ltac:(apply list_elem_of_In; simpl; auto))).
  intros key v Hfind. vm_compute in Hfind. discriminate Hfind.
Defined.
